(** * Conversation sidebar and settings form of the chat client

    A shallow embedding of [src/components/AppSidebar.tsx] (conversation
    swap, creation, search, title summarization, derived sidebar lists),
    of the settings component (model options, form schema, model-list
    effect) and of [src/constant/model.ts], with the properties the
    specification states about them. *)

From Stdlib Require Import Ascii String QArith.
From stdpp Require Import base option list strings gmap.

Local Open Scope string_scope.
Local Open Scope list_scope.
Local Open Scope nat_scope.

(** ** JavaScript objects used as ordered dictionaries

    [Record<string, V>] values are iterated with lodash [entries], [keys]
    and [values], which follow the enumeration order of the own string
    keys: the keys that are canonical array indices first, in ascending
    numeric order, then the other keys in insertion order.  An object is an
    association list in enumeration order.

    [JsObject.assign] is the assignment [o[k] = v] of a value that is not an
    object, for any key: it overwrites in place when the key exists, puts a
    new array index at its place among the indices, appends any other new
    key, and sets no own key when the key is [__proto__].  [JsObject.set] is
    the assignment for a key that is neither an array index nor [__proto__],
    where it overwrites in place or appends; the ids of conversations
    (["default"] and the 12 characters that [nanoid] draws, whose numeric
    value, when they are all digits, is beyond the array indices) are such
    keys.  It is also the assignment of an array index to an object whose
    keys are smaller array indices, as when [search] fills its result in
    the enumeration order of its argument. *)
Module JsObject.

Abbreviation t V := (list (string * V)).

Definition empty {V : Type} : t V := [].

Fixpoint get {V : Type} (k : string) (o : t V) : option V :=
  match o with
  | [] => None
  | (k', v) :: o' => if decide (k' = k) then Some v else get k o'
  end.

Fixpoint set {V : Type} (k : string) (v : V) (o : t V) : t V :=
  match o with
  | [] => [(k, v)]
  | (k', v') :: o' =>
      if decide (k' = k) then (k, v) :: o' else (k', v') :: set k v o'
  end.

Definition entries {V : Type} (o : t V) : list (string * V) := o.
Definition keys {V : Type} (o : t V) : list string := o.*1.
Definition values {V : Type} (o : t V) : list V := o.*2.

(** The array index that a key denotes, if it is a canonical array index:
    [0], or decimal digits without a leading zero, at most [2^32 - 2]. *)
Definition digit (c : ascii) : option N :=
  let n := N_of_ascii c in
  if (48 <=? n)%N && (n <=? 57)%N then Some (n - 48)%N else None.

Fixpoint digits_value (acc : N) (s : string) : option N :=
  match s with
  | EmptyString => Some acc
  | String c s' =>
      match digit c with
      | Some d => digits_value (10 * acc + d)%N s'
      | None => None
      end
  end.

Definition array_index (k : string) : option N :=
  match k with
  | EmptyString => None
  | String c rest =>
      if bool_decide (c = "0"%char) then
        if bool_decide (rest = EmptyString) then Some 0%N else None
      else
        match digits_value 0 k with
        | Some n => if (n <=? 4294967294)%N then Some n else None
        | None => None
        end
  end.

(** A new array index goes before the first key that is not an array index
    or is a larger one. *)
Fixpoint insert_index {V : Type} (i : N) (k : string) (v : V) (o : t V) : t V :=
  match o with
  | [] => [(k, v)]
  | (k', v') :: o' =>
      match array_index k' with
      | Some j =>
          if (j <? i)%N then (k', v') :: insert_index i k v o'
          else (k, v) :: o
      | None => (k, v) :: o
      end
  end.

Definition assign {V : Type} (k : string) (v : V) (o : t V) : t V :=
  if bool_decide (k = "__proto__") then o
  else
    match get k o with
    | Some _ => set k v o
    | None =>
        match array_index k with
        | Some i => insert_index i k v o
        | None => set k v o
        end
    end.

End JsObject.

(** ** Data model *)

(** Modelled from the spec: the global types [Conversation] and [Message]
    and the type of a message part, whose declarations are missing.  Their
    fields are the ones of the data model, which are also the ones the
    components read and write. *)

(** Modelled from the spec: a message part, text and/or other content
    ([part.text] may be [undefined]). *)
Record Part := {
  text : option string;
  otherContent : option string
}.

(** Modelled from the spec: a message, identified, with its ordered
    parts. *)
Record Message := {
  message_id : string;
  parts : list Part
}.

(** Modelled from the spec: the summary of a conversation. *)
Record Summary := {
  ids : list string;
  content : string
}.

(** Modelled from the spec: a stored conversation. *)
Record Conversation := {
  title : string;
  messages : list Message;
  summary : Summary;
  systemInstruction : string;
  chatLayout : string
}.

(** [{ ...conversation, title: content }] *)
Definition with_title (c : Conversation) (t : string) : Conversation :=
  {| title := t;
     messages := messages c;
     summary := summary c;
     systemInstruction := systemInstruction c;
     chatLayout := chatLayout c |}.

(** The literal of [newConversation]. *)
Definition emptyConversation : Conversation :=
  {| title := "";
     messages := [];
     summary := {| ids := []; content := "" |};
     systemInstruction := "";
     chatLayout := "doc" |}.

(** ** The two stores *)

(** Modelled from the spec: the state of [useConversationStore]
    ([store/conversation] is missing): the conversation list, the pinned
    ids and the current id, under the names the sidebar reads them. *)
Record ConversationStore := {
  conversationList : JsObject.t Conversation;
  pinned : list string;
  currentId : string
}.

(** Modelled from the spec: the state of [useMessageStore] ([store/chat]
    is missing): the live fields of the conversation that is open. *)
Record MessageStore := {
  live_title : string;
  live_messages : list Message;
  live_summary : Summary;
  live_systemInstruction : string;
  live_chatLayout : string
}.

Record World := {
  conversationStore : ConversationStore;
  messageStore : MessageStore
}.

(** Handlers run to completion between two suspension points; a handler is
    a function of the world that returns a value and the next world, or
    fails. *)
Definition Action (A : Type) : Type := World → option (A * World).

Global Instance Action_ret : MRet Action := λ A a w, Some (a, w).

Global Instance Action_bind : MBind Action := λ A B f m w,
  match m w with
  | Some (a, w') => f a w'
  | None => None
  end.

Definition throw {A : Type} : Action A := λ _, None.

Definition run {A : Type} (m : Action A) (w : World) : option World :=
  snd <$> m w.

Module Store.

(** The modules [store/conversation] and [store/chat] are imported by the
    sidebar but are not among the sources at hand; their operations are
    written after the specification. *)

(** Modelled from the spec: the read of [currentId] in the state of the
    conversation store ([store/conversation] is missing). *)
Definition getCurrentId : Action string := λ w,
  Some (currentId (conversationStore w), w).

(** Modelled from the spec: [addOrUpdate] of the conversation store
    ([store/conversation] is missing), insert-or-overwrite of the list entry
    at a key. *)
Definition addOrUpdate (id : string) (c : Conversation) : Action unit := λ w,
  let s := conversationStore w in
  Some (tt, {| conversationStore :=
                 {| conversationList := JsObject.set id c (conversationList s);
                    pinned := pinned s;
                    currentId := currentId s |};
               messageStore := messageStore w |}).

(** Modelled from the spec: [query] of the conversation store
    ([store/conversation] is missing), the lookup of the list entry at a
    key. *)
Definition query (id : string) : Action (option Conversation) := λ w,
  Some (JsObject.get id (conversationList (conversationStore w)), w).

(** Modelled from the spec: [setCurrentId] of the conversation store
    ([store/conversation] is missing), the assignment of the current id. *)
Definition setCurrentId (id : string) : Action unit := λ w,
  let s := conversationStore w in
  Some (tt, {| conversationStore :=
                 {| conversationList := conversationList s;
                    pinned := pinned s;
                    currentId := id |};
               messageStore := messageStore w |}).

(** Modelled from the spec: the [Conversation] built from the live fields
    of the message store ([store/chat] is missing). *)
Definition snapshot (m : MessageStore) : Conversation :=
  {| title := live_title m;
     messages := live_messages m;
     summary := live_summary m;
     systemInstruction := live_systemInstruction m;
     chatLayout := live_chatLayout m |}.

(** Modelled from the spec: the live fields of the message store
    ([store/chat] is missing) that hold a [Conversation]. *)
Definition load (c : Conversation) : MessageStore :=
  {| live_title := title c;
     live_messages := messages c;
     live_summary := summary c;
     live_systemInstruction := systemInstruction c;
     live_chatLayout := chatLayout c |}.

(** Modelled from the spec: the read of the live fields of the message
    store ([store/chat] is missing). *)
Definition getState : Action MessageStore := λ w, Some (messageStore w, w).

(** Modelled from the spec: [backup] of the message store ([store/chat] is
    missing), the snapshot of the live fields. *)
Definition backup : Action Conversation := λ w,
  Some (snapshot (messageStore w), w).

(** Modelled from the spec: [restore] of the message store ([store/chat]
    is missing), the replacement of all live fields by a [Conversation]. *)
Definition restore (c : Conversation) : Action unit := λ w,
  Some (tt, {| conversationStore := conversationStore w;
               messageStore := load c |}).

(** Modelled from the spec: [setTitle] of the message store ([store/chat]
    is missing), the setter of the live title. *)
Definition setTitle (t : string) : Action unit := λ w,
  let m := messageStore w in
  Some (tt, {| conversationStore := conversationStore w;
               messageStore :=
                 {| live_title := t;
                    live_messages := live_messages m;
                    live_summary := live_summary m;
                    live_systemInstruction := live_systemInstruction m;
                    live_chatLayout := live_chatLayout m |} |}).

End Store.

(** A [query] that finds nothing yields [undefined]; the handlers below
    use the result as a [Conversation], which is the caller's contract. *)
Definition defined {A : Type} (o : option A) : Action A :=
  match o with
  | Some a => mret a
  | None => throw
  end.

(** ** Conversation swap: [handleSelect] *)
Definition handleSelect (id : string) : Action unit :=
  currentId ← Store.getCurrentId;
  oldConversation ← Store.backup;
  Store.addOrUpdate currentId oldConversation;;
  found ← Store.query id;
  newConversation ← defined found;
  Store.setCurrentId id;;
  Store.restore newConversation.

(** ** Identifiers: [nanoid]

    [nanoid] is [customAlphabet('1234567890abcdefghijklmnopqrstuvwxyz', 12)]
    (l.46) of the package [nanoid], whose source is not in this repository;
    the module follows the package's [customRandom], which [customAlphabet]
    instantiates with the random bytes of the platform:

    [mask = (2 << Math.log2(alphabet.length - 1)) - 1],
    [step = -~((1.6 * mask * defaultSize) / alphabet.length)], and a loop
    that asks for [step] random bytes, reads them from the last to the
    first, appends [alphabet[bytes[j] & mask] || ''] and returns as soon as
    the id has [size] characters, asking for new bytes when the batch is
    used up.  The quotient of [step] is taken here over the integers; for the
    alphabet and the size of this program the mask is 63 and the step is
    34.

    The random bytes are an input: [getRandom n] is the array that the
    [n]-th call of the byte source returns.  The loop of the package has no
    bound; [fuel] bounds the number of calls of the byte source. *)
Module Nanoid.







End Nanoid.



(** ** Conversation creation: [newConversation]

    [newConversation id] is the handler for the identifier [id] that
    [nanoid()] returns at l.238; [createConversation] is the handler with
    the draw at its place, between the write of the old conversation and
    the writes of the new one. *)
Definition newConversation (id : string) : Action unit :=
  currentId ← Store.getCurrentId;
  oldConversation ← Store.backup;
  Store.addOrUpdate currentId oldConversation;;
  let newConversation := emptyConversation in
  Store.setCurrentId id;;
  Store.addOrUpdate id newConversation;;
  Store.restore newConversation.



(** [editTitle] of an item: [setTitle(text)] on the message store. *)
Definition editTitle (t : string) : Action unit := Store.setTitle t.

(** ** Strings

    Strings are sequences of one-byte characters; the whitespace that
    [trim] removes is the ASCII part of JavaScript's white space and line
    terminators. *)
Module Str.

Definition is_space (c : ascii) : bool :=
  let n := nat_of_ascii c in
  bool_decide (n = 32) || (bool_decide (9 ≤ n) && bool_decide (n ≤ 13)).

Fixpoint trimStart (s : string) : string :=
  match s with
  | EmptyString => EmptyString
  | String c s' => if is_space c then trimStart s' else s
  end.

Definition reverse (s : string) : string :=
  string_of_list_ascii (rev (String.list_ascii_of_string s)).

Definition trimEnd (s : string) : string := reverse (trimStart (reverse s)).

Definition trim (s : string) : string := trimEnd (trimStart s).

(** [s.startsWith(p)] *)
Fixpoint startsWith (p s : string) : bool :=
  match p, s with
  | EmptyString, _ => true
  | String a p', String b s' => bool_decide (a = b) && startsWith p' s'
  | String _ _, EmptyString => false
  end.

(** [s.substring(n)] *)
Fixpoint substring (n : nat) (s : string) : string :=
  match n, s with
  | O, _ => s
  | S n', String _ s' => substring n' s'
  | S _, EmptyString => EmptyString
  end.

(** [s.replace(pat, by)] with a string pattern: the first occurrence only. *)
Fixpoint replace (pat by_ s : string) : string :=
  if startsWith pat s then String.append by_ (substring (String.length pat) s)
  else match s with
       | EmptyString => EmptyString
       | String c s' => String c (replace pat by_ s')
       end.

(** [s.split(sep)] for a one-character separator. *)
Fixpoint split (sep : ascii) (s : string) : list string :=
  match s with
  | EmptyString => [EmptyString]
  | String c s' =>
      if bool_decide (c = sep) then EmptyString :: split sep s'
      else match split sep s' with
           | [] => [String c EmptyString]
           | w :: ws => String c w :: ws
           end
  end.

(** A string is truthy when it is not empty. *)
Definition truthy (s : string) : bool := negb (bool_decide (s = EmptyString)).

Definition lower (c : ascii) : ascii :=
  let n := nat_of_ascii c in
  if bool_decide (65 ≤ n) && bool_decide (n ≤ 90) then ascii_of_nat (n + 32) else c.

End Str.

(** ** Regular expressions with the [g] flag

    [new RegExp(source, 'gi')] yields an object with a [lastIndex] that
    [test] reads and writes.  What the pattern matches is the engine's
    business: a [Matcher] answers, for a subject and a start index, the end
    index of the leftmost match that starts at or after the start index.
    [test] is [RegExp.prototype.test] for a global expression: it looks
    from [lastIndex] on, stores the end of the match in [lastIndex] when
    there is one, and resets [lastIndex] to 0 when there is none. *)
Module RegExp.

Definition Matcher : Type := string → nat → option nat.

Record t := {
  matcher : Matcher;
  lastIndex : nat
}.

Definition create (m : Matcher) : t := {| matcher := m; lastIndex := 0 |}.

Definition test (s : string) (r : t) : bool * t :=
  if bool_decide (String.length s < lastIndex r)
  then (false, {| matcher := matcher r; lastIndex := 0 |})
  else match matcher r s (lastIndex r) with
       | Some e => (true, {| matcher := matcher r; lastIndex := e |})
       | None => (false, {| matcher := matcher r; lastIndex := 0 |})
       end.

(** The subject matches the pattern somewhere: [test] on a fresh object. *)
Definition matches (m : Matcher) (s : string) : bool := (test s (create m)).1.

(** The engine on patterns without metacharacters (letters, digits and
    spaces) under the [i] flag: a case-insensitive substring search.
    Other patterns are outside this instance, which answers [None] for
    them as the constructor does for a pattern it rejects. *)
Fixpoint prefix_ci (p s : string) : bool :=
  match p, s with
  | EmptyString, _ => true
  | String a p', String b s' =>
      bool_decide (Str.lower a = Str.lower b) && prefix_ci p' s'
  | String _ _, EmptyString => false
  end.

Fixpoint exec_literal (p s : string) (i start : nat) : option nat :=
  if bool_decide (start ≤ i) && prefix_ci p s then Some (i + String.length p)
  else match s with
       | EmptyString => None
       | String _ s' => exec_literal p s' (S i) start
       end.

Definition is_plain (c : ascii) : bool :=
  let n := nat_of_ascii c in
  bool_decide (n = 32)
  || (bool_decide (48 ≤ n) && bool_decide (n ≤ 57))
  || (bool_decide (65 ≤ n) && bool_decide (n ≤ 90))
  || (bool_decide (97 ≤ n) && bool_decide (n ≤ 122)).

Definition literal (source : string) : option Matcher :=
  if forallb is_plain (String.list_ascii_of_string source)
  then Some (λ s start, exec_literal source s 0 start)
  else None.

End RegExp.

(** ** Search over a conversation map: [search]

    [compile] stands for [new RegExp(_, 'gi')]: [None] is the [SyntaxError]
    of a malformed pattern. *)
Record SearchState := {
  regex : RegExp.t;
  results : JsObject.t Conversation
}.

Definition search_part (id : string) (item : Conversation)
    (st : SearchState) (part : Part) : SearchState :=
  match text part with
  | Some t =>
      if Str.truthy t then
        let '(hit, r) := RegExp.test t (regex st) in
        {| regex := r;
           results := if hit then JsObject.set id item (results st) else results st |}
      else st
  | None => st
  end.

Definition search_entry (st : SearchState) (entry : string * Conversation)
    : SearchState :=
  let '(id, item) := entry in
  let '(hit_title, r1) := RegExp.test (title item) (regex st) in
  let '(hit, r2) :=
    if hit_title then (true, r1) else RegExp.test (systemInstruction item) r1 in
  let st1 := {| regex := r2;
                results := if hit then JsObject.set id item (results st)
                           else results st |} in
  foldl (λ st message, foldl (search_part id item) st (parts message))
        st1 (messages item).

Definition search (compile : string → option RegExp.Matcher)
    (keyword : string) (data : JsObject.t Conversation)
    : option (JsObject.t Conversation) :=
  m ← compile (Str.trim keyword);
  Some (results (foldl search_entry
                       {| regex := RegExp.create m; results := JsObject.empty |}
                       (JsObject.entries data))).

(** ** Search over the object heap

    The sidebar passes [search] a reference to the conversation map of the
    store, whose values are references to [Conversation] records.  To say
    what [search] leaves untouched, the same loop is written over a heap of
    objects: it allocates the [results] object, reads the map and the
    records through their references and assigns to [results] only. *)
Module Heap.

Definition loc : Type := positive.

Inductive object :=
| ConversationObject (c : Conversation)
| RecordObject (fields : JsObject.t loc).

Abbreviation heap := (gmap loc object).

Definition readConversation (l : loc) (h : heap) : option Conversation :=
  match h !! l with
  | Some (ConversationObject c) => Some c
  | _ => None
  end.

Definition readRecord (l : loc) (h : heap) : option (JsObject.t loc) :=
  match h !! l with
  | Some (RecordObject fields) => Some fields
  | _ => None
  end.

(** [o[k] = v] *)
Definition assign (o : loc) (k : string) (v : loc) (h : heap) : option heap :=
  fields ← readRecord o h;
  Some (<[o := RecordObject (JsObject.set k v fields)]> h).

(** What a map of references denotes in a heap. *)
Definition view (h : heap) (fields : JsObject.t loc)
    : option (JsObject.t Conversation) :=
  mapM (λ '(k, l), c ← readConversation l h; Some (k, c)) fields.

Definition search_part (results : loc) (id : string) (item : loc)
    (st : option (RegExp.t * heap)) (part : Part) : option (RegExp.t * heap) :=
  '(r, h) ← st;
  match text part with
  | Some t =>
      if Str.truthy t then
        let '(hit, r') := RegExp.test t r in
        h' ← (if hit then assign results id item h else Some h);
        Some (r', h')
      else Some (r, h)
  | None => Some (r, h)
  end.

Definition search_entry (results : loc) (st : option (RegExp.t * heap))
    (entry : string * loc) : option (RegExp.t * heap) :=
  '(r, h) ← st;
  let '(id, item) := entry in
  c ← readConversation item h;
  let '(hit_title, r1) := RegExp.test (title c) r in
  let '(hit, r2) :=
    if hit_title then (true, r1) else RegExp.test (systemInstruction c) r1 in
  h1 ← (if hit then assign results id item h else Some h);
  c1 ← readConversation item h1;
  foldl (λ st message, foldl (search_part results id item) st (parts message))
        (Some (r2, h1)) (messages c1).

Definition search (compile : string → option RegExp.Matcher)
    (keyword : string) (data : loc) (h : heap) : option (loc * heap) :=
  let results := fresh (dom h) in
  let h0 := <[results := RecordObject JsObject.empty]> h in
  m ← compile (Str.trim keyword);
  fields ← readRecord data h0;
  '(_, h') ← foldl (search_entry results) (Some (RegExp.create m, h0))
                   (JsObject.entries fields);
  Some (results, h').

(** An entry of a map of references denotes an entry of a map of records. *)
Definition denotes (h : heap) (x : string * loc) (y : string * Conversation)
    : Prop :=
  x.1 = y.1 ∧ readConversation x.2 h = Some y.2.

(** The heap [h] differs from [h0], in which [results] is allocated, at
    most at [results], and [results] holds a map of references that
    denotes [found]. *)
Definition searching (h0 : heap) (res : loc) (h : heap)
    (found : JsObject.t Conversation) : Prop :=
  is_Some (readRecord res h0)
  ∧ (∃ fields, readRecord res h = Some fields
               ∧ Forall2 (denotes h) fields found)
  ∧ ∀ l, l ≠ res → h !! l = h0 !! l.

End Heap.

(** ** Title summarization: [handleSummaryTitle]

    The handler is asynchronous.  It runs up to [await summaryTitle(config)],
    then once per [await reader.read()]; between two of its steps other
    handlers run.  [encodeToken] and the decoding of a chunk are the
    platform's. *)

(** The fields the handler reads from the state of [useSettingStore]. *)
Record SettingStore := {
  lang : string;
  apiKey : string;
  apiProxy : string;
  model : string;
  password : string
}.

(** The request passed to [summaryTitle]. *)
Record RequestProps := {
  req_apiKey : string;
  req_model : string;
  req_lang : string;
  req_messages : list Message;
  req_systemRole : string;
  req_baseUrl : option string
}.

(** The variables the handler keeps across its suspensions. *)
Record SummaryTask := {
  task_id : string;
  task_currentId : string;
  task_conversation : Conversation;
  task_content : string
}.

(** What the user does while a handler is suspended. *)
Inductive UserAction :=
| Select (id : string)
| New (id : string)
| EditTitle (text : string).

Definition user (a : UserAction) : Action unit :=
  match a with
  | Select id => handleSelect id
  | New id => newConversation id
  | EditTitle text => editTitle text
  end.

(** What happens between the call of the handler and the end of the
    stream, in order: a chunk read from the stream, or a user action. *)
Inductive Event :=
| Chunk (value : list Byte.byte)
| User (a : UserAction).

Section SummaryTitle.

Variable encodeToken : string → string.
Variable decode : list Byte.byte → string.

(** The request.  When [query(id)] finds nothing the source goes on with
    [undefined]: it raises at [conversation.messages] or, when [id] is the
    current id, later stores an object that has a title only; the model
    stops in both cases. *)
Definition summaryConfig (s : SettingStore) (id currentId : string)
    (live : MessageStore) (conversation : Conversation) : RequestProps :=
  let messages_ :=
    if decide (id = currentId) then live_messages live else messages conversation in
  let systemRole :=
    if decide (id = currentId) then live_systemInstruction live
    else systemInstruction conversation in
  if negb (bool_decide (apiKey s = ""))
  then {| req_apiKey := apiKey s; req_model := model s; req_lang := lang s;
          req_messages := messages_; req_systemRole := systemRole;
          req_baseUrl := if Str.truthy (apiProxy s) then Some (apiProxy s) else None |}
  else {| req_apiKey := encodeToken (password s); req_model := model s;
          req_lang := lang s;
          req_messages := messages_; req_systemRole := systemRole;
          req_baseUrl := Some "/api/google" |}.

Definition summary_begin (s : SettingStore) (id : string)
    : Action (RequestProps * SummaryTask) :=
  currentId ← Store.getCurrentId;
  live ← Store.getState;
  found ← Store.query id;
  conversation ← defined found;
  mret (summaryConfig s id currentId live conversation,
        {| task_id := id; task_currentId := currentId;
           task_conversation := conversation; task_content := "" |}).

(** One turn of the loop with [done] false. *)
Definition summary_chunk (value : list Byte.byte) (t : SummaryTask)
    : Action SummaryTask :=
  let content := String.append (task_content t) (decode value) in
  Store.addOrUpdate (task_id t) (with_title (task_conversation t) content);;
  mret {| task_id := task_id t; task_currentId := task_currentId t;
          task_conversation := task_conversation t; task_content := content |}.

(** After the loop. *)
Definition summary_end (t : SummaryTask) : Action unit :=
  if decide (task_id t = task_currentId t)
  then Store.setTitle (task_content t)
  else mret tt.

Fixpoint summary_loop (t : SummaryTask) (events : list Event)
    : Action SummaryTask :=
  match events with
  | [] => mret t
  | Chunk value :: events' =>
      t' ← summary_chunk value t; summary_loop t' events'
  | User a :: events' =>
      user a;; summary_loop t events'
  end.

Definition handleSummaryTitle (s : SettingStore) (id : string)
    (events : list Event) : Action unit :=
  '(_, t) ← summary_begin s id;
  t' ← summary_loop t events;
  summary_end t'.

End SummaryTitle.

(** Modelled from the spec: the state of the two stores when the
    application starts, with the conversation ["default"] only, empty,
    and current. *)
Definition initialWorld : World :=
  {| conversationStore :=
       {| conversationList := [("default", emptyConversation)];
          pinned := [];
          currentId := "default" |};
     messageStore := Store.load emptyConversation |}.

Inductive reachable : World → Prop :=
| reachable_init : reachable initialWorld
| reachable_user (a : UserAction) (w w' : World) :
    reachable w → run (user a) w = Some w' → reachable w'.

(** A sequence of user actions, one after the other. *)
Fixpoint perform (actions : list UserAction) : Action unit :=
  match actions with
  | [] => mret tt
  | a :: actions' => user a;; perform actions'
  end.

(** ** The sidebar: items, derived lists, displayed titles *)

(** [{ id, ...conversation }] *)
Record ConversationItem := {
  item_id : string;
  item_conversation : Conversation
}.

Definition sources (conversationList : JsObject.t Conversation)
    (conversations : option (JsObject.t Conversation)) : JsObject.t Conversation :=
  match conversations with
  | None => conversationList
  | Some found => found
  end.

(** The memo of [AppSidebar]: the pair [[list, pinnedList]]. *)
Definition lists_step (pinned : list string)
    (acc : list ConversationItem * list ConversationItem)
    (entry : string * Conversation)
    : list ConversationItem * list ConversationItem :=
  let '(list_, pinnedList) := acc in
  let '(id, conversation) := entry in
  let item := {| item_id := id; item_conversation := conversation |} in
  if bool_decide (id ≠ "default") then
    if bool_decide (id ∈ pinned) then (list_, pinnedList ++ [item])
    else (list_ ++ [item], pinnedList)
  else (list_, pinnedList).

Definition lists (conversationList : JsObject.t Conversation)
    (conversations : option (JsObject.t Conversation)) (pinned : list string)
    : list ConversationItem * list ConversationItem :=
  foldl (lists_step pinned) ([], [])
        (JsObject.entries (sources conversationList conversations)).

(** [conversationTitle] of an item; [t] is the translation function. *)
Definition conversationTitle (t : string → string) (title : string) : string :=
  if bool_decide (title = "") then t "chatAnything" else title.

(** ** The model table and the model options of the settings view *)

(** [Model] of [src/constant/model.ts], as the module exports it. *)
Definition Model : JsObject.t string :=
  [ ("gemini-1.5-pro", "Gemini 1.5 Pro");
    ("gemini-1.5-pro-latest", "Gemini 1.5 Pro Latest");
    ("gemini-1.5-flash", "Gemini 1.5 Flash");
    ("gemini-1.5-flash-latest", "Gemini 1.5 Flash Latest");
    ("gemini-1.5-flash-8b", "Gemini 1.5 Flash-8B");
    ("gemini-1.5-flash-8b-latest", "Gemini 1.5 Flash-8B Latest");
    ("gemini-1.0-pro-vision", "Gemini 1.0 Pro Vision");
    ("gemini-1.0-pro-vision-latest", "Gemini 1.0 Pro Vision Latest");
    ("gemini-1.0-pro", "Gemini 1.0 Pro");
    ("gemini-1.0-pro-latest", "Gemini 1.0 Pro Latest");
    ("gemini-pro-vision", "Gemini Pro Vision");
    ("gemini-pro", "Gemini Pro") ].

(** A record of the model-list service. *)
Record ModelInfo := {
  name : string;
  displayName : string
}.

(** One turn of the loop of the merge, with [models] the values of the
    table before the loop. *)
Definition merge_step (models : list string) (table : JsObject.t string)
    (item : ModelInfo) : JsObject.t string :=
  let modelName := Str.replace "models/" "" (name item) in
  if negb (bool_decide (modelName ∈ models))
  then JsObject.assign modelName (displayName item) table
  else table.

(** The part of the memo that writes the fetched models into the table
    (the table is a module-level object, so the writes stay). *)
Definition mergeModels (fetched : list ModelInfo) (table : JsObject.t string)
    : JsObject.t string :=
  if bool_decide (0 < length fetched) then
    let models := JsObject.values table in
    foldl (merge_step models) table fetched
  else table.

(** The variables of the loop over [userModels]: [modelList],
    [defaultModel], and the calls of [update({ model })] made so far. *)
Record Options := {
  modelList : list string;
  defaultModel : string;
  updates : list (option string)
}.

Definition push_new (name : string) (l : list string) : list string :=
  if negb (bool_decide (name ∈ l)) then l ++ [name] else l.

Definition userModel (defaultModelList : list string) (st : Options)
    (modelName : string) : Options :=
  if bool_decide (modelName = "all") || bool_decide (modelName = "+all") then
    {| modelList := foldl (λ l name, push_new name l) (modelList st) defaultModelList;
       defaultModel := defaultModel st; updates := updates st |}
  else if bool_decide (modelName = "-all") then
    {| modelList := filter (λ name, name ∉ defaultModelList) (modelList st);
       defaultModel := defaultModel st; updates := updates st |}
  else if Str.startsWith "-" modelName then
    {| modelList := filter (λ name, name ≠ Str.substring 1 modelName) (modelList st);
       defaultModel := defaultModel st; updates := updates st |}
  else if Str.startsWith "@" modelName then
    let name := Str.substring 1 modelName in
    {| modelList := push_new name (modelList st);
       defaultModel := name;
       updates := updates st ++ [Some name] |}
  else
    {| modelList := modelList st ++
                    [if Str.startsWith "+" modelName then Str.substring 1 modelName
                     else modelName];
       defaultModel := defaultModel st; updates := updates st |}.

(** [GEMINI_MODEL_LIST ? GEMINI_MODEL_LIST.split(',') : []] *)
Definition userModels (GEMINI_MODEL_LIST : option string) : list string :=
  match GEMINI_MODEL_LIST with
  | Some s => if Str.truthy s then Str.split "," s else []
  | None => []
  end.

(** The result of the memo: the returned options, the table after the
    merge, and the calls of the setting store's [update]. *)
Record ModelOptions := {
  options : list string;
  table_after : JsObject.t string;
  setting_updates : list (option string)
}.

Definition modelOptions (GEMINI_MODEL_LIST : option string)
    (fetched : list ModelInfo) (table : JsObject.t string) : ModelOptions :=
  let table' := mergeModels fetched table in
  let defaultModelList := JsObject.keys table' in
  let st := foldl (userModel defaultModelList)
                  {| modelList := []; defaultModel := "gemini-1.5-flash-latest";
                     updates := [] |}
                  (userModels GEMINI_MODEL_LIST) in
  let models :=
    if bool_decide (0 < length (modelList st)) then modelList st
    else defaultModelList in
  {| options := models;
     table_after := table';
     setting_updates :=
       if negb (bool_decide (defaultModel st ∈ models))
       then updates st ++ [head models] else updates st |}.

(** The layout effect of the view.  [cachedModelList] is the module-level
    flag; the model store holds the sequence the memo reads. *)
Record ModelState := {
  cachedModelList : bool;
  store_models : list ModelInfo
}.

(** Whether opening the view calls [fetchModels]. *)
Definition fetches (open_ : bool) (st : ModelState) : bool :=
  open_ && negb (cachedModelList st).

(** Modelled from the spec: [update] of the model store ([store/model],
    not part of the sources at hand) stores the sequence it is given. *)
Definition modelStore_update (models : list ModelInfo) (st : ModelState)
    : ModelState :=
  {| cachedModelList := cachedModelList st; store_models := models |}.

(** The continuation of [fetchModels(...)]. *)
Definition fetched_then (models : list ModelInfo) (st : ModelState) : ModelState :=
  if bool_decide (0 < length models) then
    let st' := modelStore_update models st in
    {| cachedModelList := true; store_models := store_models st' |}
  else st.

(** The options shown after the view was opened and the service answered. *)
Definition options_after_fetch (GEMINI_MODEL_LIST : option string)
    (answer : list ModelInfo) (st : ModelState) (table : JsObject.t string)
    : ModelOptions :=
  modelOptions GEMINI_MODEL_LIST (store_models (fetched_then answer st)) table.

(** ** The schema of the settings form

    The schema is built from the validators of the schema library: a
    validator takes a JavaScript value and yields the parsed value, or
    nothing when it reports an issue.  [number] rejects [NaN] and what is
    not a number; [gte] and [lte] compare; [optional] lets [undefined]
    through; [default] replaces [undefined] by the default before the
    inner validator runs. *)
Module Zod.

Inductive number :=
| NaN
| Infinity
| NegInfinity
| Finite (q : Q).

Inductive value :=
| Undefined
| Null
| Boolean (b : bool)
| Number (n : number)
| Text (s : string).

Definition Schema (A : Type) : Type := value → option A.

(** [a <= b] on JavaScript numbers. *)
Definition leb (a b : number) : bool :=
  match a, b with
  | NaN, _ | _, NaN => false
  | NegInfinity, _ => true
  | _, Infinity => true
  | Finite p, Finite q => Qle_bool p q
  | _, _ => false
  end.

Definition string : Schema String.string := λ v,
  match v with
  | Text s => Some s
  | _ => None
  end.

Definition url (is_url : String.string → bool) (s : Schema String.string)
    : Schema String.string := λ v,
  x ← s v; if is_url x then Some x else None.

Definition number_ : Schema number := λ v,
  match v with
  | Number NaN => None
  | Number n => Some n
  | _ => None
  end.

Definition gte (k : Q) (s : Schema number) : Schema number := λ v,
  n ← s v; if leb (Finite k) n then Some n else None.

Definition lte (k : Q) (s : Schema number) : Schema number := λ v,
  n ← s v; if leb n (Finite k) then Some n else None.

Definition boolean : Schema bool := λ v,
  match v with
  | Boolean b => Some b
  | _ => None
  end.

Definition enum (allowed : list String.string) : Schema String.string := λ v,
  match v with
  | Text s => if bool_decide (s ∈ allowed) then Some s else None
  | _ => None
  end.

Definition optional {A : Type} (s : Schema A) : Schema (option A) := λ v,
  match v with
  | Undefined => Some None
  | _ => Some <$> s v
  end.

Definition default {A : Type} (d : value) (s : Schema A) : Schema A := λ v,
  match v with
  | Undefined => s d
  | _ => s v
  end.

(** The value of a key of the object under validation. *)
Definition field (k : String.string) (input : JsObject.t value) : value :=
  match JsObject.get k input with
  | Some v => v
  | None => Undefined
  end.

End Zod.

Module Form.

Import Zod.

(** The values the schema yields ([z.infer<typeof formSchema>]). *)
Record Values := {
  password : option String.string;
  assistantIndexUrl : String.string;
  lang : option String.string;
  apiKey : option String.string;
  apiProxy : option String.string;
  uploadProxy : option String.string;
  model : String.string;
  maxHistoryLength : option number;
  topP : number;
  topK : number;
  temperature : number;
  maxOutputTokens : number;
  safety : String.string;
  sttLang : option String.string;
  ttsLang : option String.string;
  ttsVoice : option String.string;
  autoStopRecord : bool
}.

Definition safety_levels : list String.string := ["none"; "low"; "middle"; "high"].

Section Schema.

Variable is_url : String.string → bool.

Definition formSchema (input : JsObject.t value) : option Values :=
  password ← optional string (field "password" input);
  assistantIndexUrl ← url is_url string (field "assistantIndexUrl" input);
  lang ← optional string (field "lang" input);
  apiKey ← optional string (field "apiKey" input);
  apiProxy ← optional (url is_url string) (field "apiProxy" input);
  uploadProxy ← optional (url is_url string) (field "uploadProxy" input);
  model ← string (field "model" input);
  maxHistoryLength ←
    default (Number (Finite 0)) (optional (lte 50 (gte 0 number_)))
            (field "maxHistoryLength" input);
  topP ← default (Number (Finite (95 # 100))) (lte 1 (gte 0 number_))
                 (field "topP" input);
  topK ← default (Number (Finite 40)) (lte 128 (gte 0 number_))
                 (field "topK" input);
  temperature ← default (Number (Finite 1)) (lte 1 (gte 0 number_))
                        (field "temperature" input);
  maxOutputTokens ← default (Number (Finite 8192)) (lte 8192 (gte 0 number_))
                            (field "maxOutputTokens" input);
  safety ← default (Text "none") (enum safety_levels) (field "safety" input);
  sttLang ← optional string (field "sttLang" input);
  ttsLang ← optional string (field "ttsLang" input);
  ttsVoice ← optional string (field "ttsVoice" input);
  autoStopRecord ← default (Boolean false) boolean (field "autoStopRecord" input);
  Some {| password := password; assistantIndexUrl := assistantIndexUrl;
          lang := lang; apiKey := apiKey; apiProxy := apiProxy;
          uploadProxy := uploadProxy; model := model;
          maxHistoryLength := maxHistoryLength; topP := topP; topK := topK;
          temperature := temperature; maxOutputTokens := maxOutputTokens;
          safety := safety; sttLang := sttLang; ttsLang := ttsLang;
          ttsVoice := ttsVoice; autoStopRecord := autoStopRecord |}.

(** What submitting the form does: the resolver validates, and only then
    is [handleSubmit] called, which updates the setting store and closes
    the view. *)
Inductive Effect :=
| Update (values : Values)
| Close.

Definition handleSubmit (values : Values) : list Effect :=
  [Update values; Close].

Definition submit (input : JsObject.t value) : list Effect :=
  match formSchema input with
  | Some values => handleSubmit values
  | None => []
  end.

End Schema.

(** A number lies between two bounds. *)
Definition between (lo hi : Q) (n : number) : Prop :=
  ∃ q, n = Finite q ∧ (lo <= q)%Q ∧ (q <= hi)%Q.

(** The bounds of the schema. *)
Definition within (values : Values) : Prop :=
  (∃ n, maxHistoryLength values = Some n ∧ between 0 50 n)
  ∧ between 0 1 (topP values)
  ∧ between 0 128 (topK values)
  ∧ between 0 1 (temperature values)
  ∧ between 0 8192 (maxOutputTokens values)
  ∧ safety values ∈ ["none"; "low"; "middle"; "high"].

(** A field of the object holds a number outside its range, or a safety
    level that is none of the four. *)
Definition outside (input : JsObject.t value) : Prop :=
  (∃ n, field "maxHistoryLength" input = Number n ∧ ¬ between 0 50 n)
  ∨ (∃ n, field "topP" input = Number n ∧ ¬ between 0 1 n)
  ∨ (∃ n, field "topK" input = Number n ∧ ¬ between 0 128 n)
  ∨ (∃ n, field "temperature" input = Number n ∧ ¬ between 0 1 n)
  ∨ (∃ n, field "maxOutputTokens" input = Number n ∧ ¬ between 0 8192 n)
  ∨ (∃ s, field "safety" input = Text s ∧ s ∉ ["none"; "low"; "middle"; "high"]).

End Form.

(** ** Scenarios and auxiliary notions used by the properties *)

(** The world after two conversations were created from the start. *)
Definition twoCreated : World :=
  default initialWorld
    (run (newConversation "x00000000001";; newConversation "y00000000002")
         initialWorld).

(** The world after a conversation was created and its title edited. *)
Definition titleEdited : World :=
  default initialWorld
    (run (user (New "x00000000001");; user (EditTitle "Trip plan"))
         initialWorld).







(** The item pushed for an entry of the shown map. *)
Definition make_item (entry : string * Conversation) : ConversationItem :=
  {| item_id := entry.1; item_conversation := entry.2 |}.

(** The entries that go to the ordinary list, and to the pinned list. *)
Definition listed (pinned : list string) (entry : string * Conversation) : Prop :=
  entry.1 ≠ "default" ∧ entry.1 ∉ pinned.

Definition listed_pinned (pinned : list string) (entry : string * Conversation)
    : Prop :=
  entry.1 ≠ "default" ∧ entry.1 ∈ pinned.

(** A heap with a map of one entry, [a], and its record. *)
Definition searchedConversation : Conversation :=
  {| title := "Hello World"; messages := [];
     summary := {| ids := []; content := "" |};
     systemInstruction := ""; chatLayout := "doc" |}.

Definition searchedHeap : Heap.heap :=
  <[1%positive := Heap.RecordObject [("a", 2%positive)]]>
    (<[2%positive := Heap.ConversationObject searchedConversation]> ∅).

(** A conversation whose only text is one message part. *)
Definition saying (s : string) : Conversation :=
  {| title := "";
     messages := [ {| message_id := "m1";
                      parts := [ {| text := Some s; otherContent := None |} ] |} ];
     summary := {| ids := []; content := "" |};
     systemInstruction := ""; chatLayout := "doc" |}.

(** A conversation that has a title and nothing else. *)
Definition titled (s : string) : Conversation :=
  {| title := s; messages := [];
     summary := {| ids := []; content := "" |};
     systemInstruction := ""; chatLayout := "doc" |}.

(** A setting with an API key and no proxy. *)
Definition someSetting : SettingStore :=
  {| lang := "en"; apiKey := "key"; apiProxy := ""; model := "gemini-pro";
     password := "" |}.

(** Conversations ["x00000000001"] (titled [Groceries]) and
    ["y00000000002"] exist next to ["default"]; the second is open. *)
Definition secondOpen : World :=
  default initialWorld
    (run (user (Select "x00000000001");; user (EditTitle "Groceries");;
          user (Select "y00000000002"))
         twoCreated).

(** The same, with the first open. *)
Definition firstOpen : World :=
  default initialWorld (run (user (Select "x00000000001")) secondOpen).

(** The bytes of an ASCII text, as a chunk of the stream carries them. *)
Definition bytes (s : string) : list Byte.byte := list_byte_of_string s.

(** A stand-in for [encodeToken]; the setting above has an API key, so the
    token is not used. *)
Definition token (s : string) : string := s.

(** The settings view before it was ever opened. *)
Definition closedView : ModelState :=
  {| cachedModelList := false; store_models := [] |}.

(** A conversation matches an expression when its title, its system
    instruction or the non-empty text of one of its message parts does. *)
Definition entry_matches (m : RegExp.Matcher) (c : Conversation) : Prop :=
  RegExp.matches m (title c) = true
  ∨ RegExp.matches m (systemInstruction c) = true
  ∨ ∃ message part t,
      message ∈ messages c ∧ part ∈ parts message
      ∧ text part = Some t ∧ Str.truthy t = true ∧ RegExp.matches m t = true.

(** An engine finds a match from the start of a subject whenever it finds
    one further on. *)
Definition finds_from_start (m : RegExp.Matcher) : Prop :=
  ∀ s k e, m s k = Some e → is_Some (m s 0).

(** The expression of the state is the one of [m], and every entry among
    the results matches. *)
Definition sound (m : RegExp.Matcher) (st : SearchState) : Prop :=
  RegExp.matcher (regex st) = m
  ∧ ∀ id c, (id, c) ∈ results st → entry_matches m c.

(** The text accumulated from the chunks of a stream. *)
Definition accumulated (decode : list Byte.byte → string)
    (from : string) (values : list (list Byte.byte)) : string :=
  foldl (λ content value, String.append content (decode value)) from values.

(** ** What the sidebar renders *)

(** [Props] of the component [ConversationItem]. *)
Record Props := {
  props_id : string;
  props_title : string;
  props_pinned : bool;
  props_isActive : bool
}.

(** The [ConversationItem] elements of [AppSidebar], top to bottom: the
    fixed entry of ["default"], the pinned list, the ordinary list (a group
    is left out when its list is empty, which leaves no element out). *)
Definition AppSidebar_items (t : string → string)
    (conversationList : JsObject.t Conversation)
    (conversations : option (JsObject.t Conversation))
    (pinned : list string) (currentId : string) : list Props :=
  let list_ := (lists conversationList conversations pinned).1 in
  let pinnedList := (lists conversationList conversations pinned).2 in
  {| props_id := "default"; props_title := t "defaultConversation";
     props_pinned := false;
     props_isActive := bool_decide (currentId = "default") |}
  :: ((λ item, {| props_id := item_id item;
                  props_title := title (item_conversation item);
                  props_pinned := true;
                  props_isActive := bool_decide (currentId = item_id item) |})
        <$> pinnedList)
  ++ ((λ item, {| props_id := item_id item;
                  props_title := title (item_conversation item);
                  props_pinned := false;
                  props_isActive := bool_decide (currentId = item_id item) |})
        <$> list_).

(** The entries of the dropdown menu of an item. *)
Inductive MenuEntry :=
| MenuPin
| MenuUnpin
| MenuCopy
| MenuAIRename
| MenuRename
| MenuDelete.

(** [editTitleMode] is the state of the item that the rename entry sets
    and [editTitle] clears: while it holds the item renders the rename input
    and its save button in place of the title and the dropdown menu
    (l.134-205). *)
Definition menu (editTitleMode : bool) (p : Props) : list MenuEntry :=
  if editTitleMode then []
  else
    (if bool_decide (props_id p ≠ "default")
     then [if props_pinned p then MenuUnpin else MenuPin] else [])
    ++ [MenuCopy]
    ++ (if bool_decide (props_id p ≠ "default")
        then [MenuAIRename; MenuRename; MenuDelete] else []).

(** The last call of [update] in the loop over [userModels], if there was
    one, stored the default model of the loop. *)
Definition tracks (st : Options) : Prop :=
  updates st = [] ∨ last (updates st) = Some (Some (defaultModel st)).

(** [handleSearch] and [handleClearKeyword] of [AppSidebar]: the state
    [conversations] after the handler.  A keyword that does not compile
    raises before [setConversations], which leaves the state as it is. *)
Definition handleSearch (compile : string → option RegExp.Matcher)
    (keyword : string) (conversationList : JsObject.t Conversation)
    (conversations : option (JsObject.t Conversation))
    : option (JsObject.t Conversation) :=
  match search compile keyword conversationList with
  | Some result => Some result
  | None => conversations
  end.

Definition handleClearKeyword (conversations : option (JsObject.t Conversation))
    : option (JsObject.t Conversation) :=
  None.

(** The accepted values of the form, as the object they are. *)
Definition optional_text (o : option string) : Zod.value :=
  match o with
  | Some s => Zod.Text s
  | None => Zod.Undefined
  end.

Definition optional_number (o : option Zod.number) : Zod.value :=
  match o with
  | Some n => Zod.Number n
  | None => Zod.Undefined
  end.

Definition values_object (v : Form.Values) : JsObject.t Zod.value :=
  [ ("password", optional_text (Form.password v));
    ("assistantIndexUrl", Zod.Text (Form.assistantIndexUrl v));
    ("lang", optional_text (Form.lang v));
    ("apiKey", optional_text (Form.apiKey v));
    ("apiProxy", optional_text (Form.apiProxy v));
    ("uploadProxy", optional_text (Form.uploadProxy v));
    ("model", Zod.Text (Form.model v));
    ("maxHistoryLength", optional_number (Form.maxHistoryLength v));
    ("topP", Zod.Number (Form.topP v));
    ("topK", Zod.Number (Form.topK v));
    ("temperature", Zod.Number (Form.temperature v));
    ("maxOutputTokens", Zod.Number (Form.maxOutputTokens v));
    ("safety", Zod.Text (Form.safety v));
    ("sttLang", optional_text (Form.sttLang v));
    ("ttsLang", optional_text (Form.ttsLang v));
    ("ttsVoice", optional_text (Form.ttsVoice v));
    ("autoStopRecord", Zod.Boolean (Form.autoStopRecord v)) ].

(** The answers of the model-list service, handled one after the other. *)
Definition answers_then (answers : list (list ModelInfo)) (st : ModelState)
    : ModelState :=
  foldl (λ st answer, fetched_then answer st) st answers.

(** ** The language handlers of the settings view *)

(** An option of the voice list of the speech library. *)
Record VoiceOption := {
  voice_label : string;
  voice_value : string
}.

(** What the language handlers write: the language of [i18n], the form
    values [lang], [sttLang], [ttsLang] and [ttsVoice], and the state
    [ttsLang] of the component. *)
Record Languages := {
  i18n_language : string;
  form_lang : option string;
  form_sttLang : option string;
  form_ttsLang : option string;
  form_ttsVoice : option string;
  state_ttsLang : string
}.

(** A handler returns or raises; what it wrote before it raised stays. *)
Inductive Outcome :=
| Returned (st : Languages)
| Raised (st : Languages).

Definition outcome_state (o : Outcome) : Languages :=
  match o with
  | Returned st => st
  | Raised st => st
  end.

Section Voices.

(** [new EdgeSpeech({ locale }).voiceOptions]: a list of options, or
    [undefined]. *)
Variable voiceOptions : string → option (list VoiceOption).

(** [handleTTSChange]; [options[0].value] raises when the list is empty. *)
Definition handleTTSChange (value : string) (st : Languages) : Outcome :=
  let st1 := {| i18n_language := i18n_language st;
                form_lang := form_lang st;
                form_sttLang := form_sttLang st;
                form_ttsLang := Some value;
                form_ttsVoice := form_ttsVoice st;
                state_ttsLang := value |} in
  match voiceOptions value with
  | Some (first :: _) =>
      Returned {| i18n_language := i18n_language st1;
                  form_lang := form_lang st1;
                  form_sttLang := form_sttLang st1;
                  form_ttsLang := form_ttsLang st1;
                  form_ttsVoice := Some (voice_value first);
                  state_ttsLang := state_ttsLang st1 |}
  | Some [] => Raised st1
  | None => Returned st1
  end.

(** [handleLangChange] *)
Definition handleLangChange (value : string) (st : Languages) : Outcome :=
  handleTTSChange value
    {| i18n_language := value;
       form_lang := Some value;
       form_sttLang := Some value;
       form_ttsLang := form_ttsLang st;
       form_ttsVoice := form_ttsVoice st;
       state_ttsLang := state_ttsLang st |}.

End Voices.

(** The list that the loop over [userModels] builds from
    [GEMINI_MODEL_LIST], for a given list of default models. *)
Definition userModelList (GEMINI_MODEL_LIST : option string)
    (defaultModelList : list string) : list string :=
  modelList (foldl (userModel defaultModelList)
                   {| modelList := []; defaultModel := "gemini-1.5-flash-latest";
                      updates := [] |}
                   (userModels GEMINI_MODEL_LIST)).

(** A conversation list with a pinned conversation that a search for
    [hello] does not find. *)
Definition listWithPinned : JsObject.t Conversation :=
  [("default", emptyConversation); ("a", titled "Hello World");
   ("b", titled "Groceries")].

(** What an item shows: [conversationTitle], computed from its [title]
    prop; it is the text of the title, and the initial text of the rename
    input while the item is being renamed. *)
Definition rendered_title (t : string → string) (p : Props) : string :=
  conversationTitle t (props_title p).

(** The world after a conversation was created, ["default"] was opened
    again, a title was saved from the rename input of the other item while
    ["default"] was open, and the other conversation was opened. *)
Definition defaultRenamed : World :=
  default initialWorld
    (run (perform [New "x00000000001"; Select "default"; EditTitle "My chat";
                   Select "x00000000001"])
         initialWorld).

(** * Properties *)

(** ** Objects as dictionaries *)
Module JsObjectFacts.

Import JsObject.

Lemma get_set_eq {V : Type} (k : string) (v : V) (o : t V) :
  get k (set k v o) = Some v.
Proof.
  induction o as [|[k' v'] o IH]; simpl.
  - by rewrite decide_True.
  - destruct (decide (k' = k)) as [->|Hne]; simpl.
    + by rewrite decide_True.
    + by rewrite decide_False.
Qed.

Lemma get_set_ne {V : Type} (k k' : string) (v : V) (o : t V) :
  k ≠ k' → get k' (set k v o) = get k' o.
Proof.
  intros Hne. induction o as [|[k0 v0] o IH]; simpl.
  - by rewrite decide_False.
  - destruct (decide (k0 = k)) as [->|Hk]; simpl.
    + by rewrite !decide_False.
    + destruct (decide (k0 = k')); done.
Qed.

Lemma keys_set_in {V : Type} (k : string) (v : V) (o : t V) :
  is_Some (get k o) → keys (set k v o) = keys o.
Proof.
  unfold keys. induction o as [|[k0 v0] o IH]; simpl.
  - by intros [? ?].
  - destruct (decide (k0 = k)) as [->|Hk]; simpl; [done|].
    intros H. f_equal. by apply IH.
Qed.

Lemma keys_set_fresh {V : Type} (k : string) (v : V) (o : t V) :
  get k o = None → keys (set k v o) = keys o ++ [k].
Proof.
  unfold keys. induction o as [|[k0 v0] o IH]; simpl; [done|].
  destruct (decide (k0 = k)) as [->|Hk]; simpl; [done|].
  intros H. f_equal. by apply IH.
Qed.

Lemma get_Some_elem {V : Type} (k : string) (v : V) (o : t V) :
  get k o = Some v → (k, v) ∈ o.
Proof.
  induction o as [|[k0 v0] o IH]; simpl; [done|].
  destruct (decide (k0 = k)) as [->|Hk].
  - intros [= ->]. apply list_elem_of_here.
  - intros H. apply list_elem_of_further. by apply IH.
Qed.

Lemma get_None_keys {V : Type} (k : string) (o : t V) :
  get k o = None ↔ k ∉ keys o.
Proof.
  unfold keys. induction o as [|[k0 v0] o IH]; simpl.
  - split; [intros _; apply not_elem_of_nil | done].
  - destruct (decide (k0 = k)) as [->|Hk].
    + split; [done|]. intros H. exfalso. apply H. apply list_elem_of_here.
    + rewrite IH, not_elem_of_cons. split; [intros ?; split; [congruence|done] | by intros [_ ?]].
Qed.

End JsObjectFacts.

(** ** Backup and restore are inverse to each other *)
Lemma load_snapshot (m : MessageStore) : Store.load (Store.snapshot m) = m.
Proof. by destruct m. Qed.

Lemma snapshot_load (c : Conversation) : Store.snapshot (Store.load c) = c.
Proof. by destruct c. Qed.

(** ** The swap *)

(** What [handleSelect] computes, in closed form. *)
Lemma handleSelect_unfold (id : string) (w : World) :
  handleSelect id w =
    let s := conversationStore w in
    let list' := JsObject.set (currentId s) (Store.snapshot (messageStore w))
                              (conversationList s) in
    match JsObject.get id list' with
    | Some c =>
        Some (tt, {| conversationStore :=
                       {| conversationList := list'; pinned := pinned s;
                          currentId := id |};
                     messageStore := Store.load c |})
    | None => None
    end.
Proof.
  unfold handleSelect, mbind, Action_bind; simpl.
  destruct (JsObject.get id _); reflexivity.
Qed.

(** C1, as amended: for every state and every [id] present in the list,
    [handleSelect id] succeeds; afterwards the current id is [id], the list
    entry at the old current id is the snapshot of the prior live fields,
    the other entries and the pinned ids are as before, and the live fields
    are the prior list entry at [id] when [id] differs from the old current
    id, and are unchanged when [id] is the old current id. *)
Theorem handleSelect_swap (w : World) (id : string) (c : Conversation) :
  JsObject.get id (conversationList (conversationStore w)) = Some c →
  ∃ w',
    handleSelect id w = Some (tt, w')
    ∧ currentId (conversationStore w') = id
    ∧ pinned (conversationStore w') = pinned (conversationStore w)
    ∧ JsObject.get (currentId (conversationStore w))
                   (conversationList (conversationStore w'))
      = Some (Store.snapshot (messageStore w))
    ∧ (∀ k, k ≠ currentId (conversationStore w) →
            JsObject.get k (conversationList (conversationStore w'))
            = JsObject.get k (conversationList (conversationStore w)))
    ∧ (id ≠ currentId (conversationStore w) → messageStore w' = Store.load c)
    ∧ (id = currentId (conversationStore w) → messageStore w' = messageStore w).
Proof.
  intros Hc. rewrite handleSelect_unfold; simpl.
  destruct (decide (id = currentId (conversationStore w))) as [->|Hne].
  - rewrite JsObjectFacts.get_set_eq. eexists; split; [reflexivity|]; simpl.
    repeat split; try done.
    + apply JsObjectFacts.get_set_eq.
    + intros k Hk. by apply JsObjectFacts.get_set_ne.
    + intros _. apply load_snapshot.
  - rewrite JsObjectFacts.get_set_ne, Hc by done.
    eexists; split; [reflexivity|]; simpl.
    repeat split; try done.
    + apply JsObjectFacts.get_set_eq.
    + intros k Hk. by apply JsObjectFacts.get_set_ne.
Qed.

(** The swap at work: with ["y00000000002"] open, selecting
    ["x00000000001"] stores the live fields under ["y00000000002"] and loads
    the entry of ["x00000000001"]. *)
Lemma handleSelect_swap_witness :
  JsObject.get "x00000000001" (conversationList (conversationStore twoCreated))
    = Some emptyConversation
  ∧ ∃ w',
      handleSelect "x00000000001" twoCreated = Some (tt, w')
      ∧ currentId (conversationStore w') = "x00000000001"
      ∧ JsObject.get "y00000000002" (conversationList (conversationStore w'))
        = Some (Store.snapshot (messageStore twoCreated))
      ∧ messageStore w' = Store.load emptyConversation.
Proof.
  split; [reflexivity|].
  destruct (handleSelect_swap twoCreated "x00000000001" emptyConversation
              eq_refl) as (w' & Hrun & Hid & _ & Hold & _ & Hlive & _).
  exists w'. repeat split; [exact Hrun | exact Hid | exact Hold |].
  apply Hlive. discriminate.
Defined.

(** C1, as stated, fails when the target is the current conversation: the
    state [titleEdited] is reachable, ["x00000000001"] is current and present
    in its list with the empty conversation as entry, and after
    [handleSelect "x00000000001"] the live fields are not that prior entry
    (they keep the edited title). *)
Lemma handleSelect_current_counterexample :
  reachable titleEdited
  ∧ currentId (conversationStore titleEdited) = "x00000000001"
  ∧ JsObject.get "x00000000001" (conversationList (conversationStore titleEdited))
    = Some emptyConversation
  ∧ ∃ w',
      handleSelect "x00000000001" titleEdited = Some (tt, w')
      ∧ Store.snapshot (messageStore w') ≠ emptyConversation
      ∧ live_title (messageStore w') = "Trip plan".
Proof.
  split; [|split; [|split]].
  - apply (reachable_user (EditTitle "Trip plan")
             (default initialWorld (run (user (New "x00000000001")) initialWorld)));
      [|reflexivity].
    apply (reachable_user (New "x00000000001") initialWorld);
      [apply reachable_init | reflexivity].
  - reflexivity.
  - reflexivity.
  - rewrite handleSelect_unfold.
    eexists; split; [reflexivity|]. split; [discriminate | reflexivity].
Qed.

(** ** Creation *)

(** *** The identifiers that [nanoid] draws *)











(** *** Long keys are not array indices *)







(** ** The derived lists of the sidebar *)

Lemma lists_fold (pinned : list string) (es : list (string * Conversation))
    (l p : list ConversationItem) :
  foldl (lists_step pinned) (l, p) es
  = (l ++ (make_item <$> filter (listed pinned) es),
     p ++ (make_item <$> filter (listed_pinned pinned) es)).
Proof.
  revert l p. induction es as [|[id c] es IH]; intros l p; simpl.
  - by rewrite !app_nil_r.
  - rewrite !filter_cons. unfold listed at 1, listed_pinned at 1. simpl.
    destruct (decide (id = "default")) as [->|Hd].
    + rewrite bool_decide_eq_false_2 by (intros H; by apply H).
      rewrite IH. rewrite !decide_False by (intros [H _]; by apply H). done.
    + rewrite bool_decide_eq_true_2 by done.
      destruct (decide (id ∈ pinned)) as [Hp|Hp].
      * rewrite bool_decide_eq_true_2 by done. rewrite IH.
        rewrite decide_False by (intros [_ H]; by apply H).
        rewrite decide_True by done. simpl.
        by rewrite <- app_assoc.
      * rewrite bool_decide_eq_false_2 by done. rewrite IH.
        rewrite decide_True by done.
        rewrite decide_False by (intros [_ H]; by apply Hp). simpl.
        by rewrite <- app_assoc.
Qed.

Lemma lists_filter (conversationList : JsObject.t Conversation)
    (conversations : option (JsObject.t Conversation)) (pinned : list string) :
  lists conversationList conversations pinned
  = (make_item <$> filter (listed pinned)
                          (sources conversationList conversations),
     make_item <$> filter (listed_pinned pinned)
                          (sources conversationList conversations)).
Proof. unfold lists, JsObject.entries. by rewrite lists_fold. Qed.

Lemma item_ids_filter (P : string * Conversation → Prop)
    `{!∀ e, Decision (P e)} (es : list (string * Conversation)) (id : string) :
  id ∈ item_id <$> (make_item <$> filter P es) ↔ ∃ c, (id, c) ∈ es ∧ P (id, c).
Proof.
  rewrite <- list_fmap_compose. rewrite list_elem_of_fmap. split.
  - intros ([k c] & -> & Hin). apply list_elem_of_filter in Hin as [HP Hin].
    by exists c.
  - intros (c & Hin & HP). exists (id, c). split; [done|].
    by apply list_elem_of_filter.
Qed.

Lemma key_elem (es : JsObject.t Conversation) (id : string) :
  id ∈ JsObject.keys es ↔ ∃ c, (id, c) ∈ es.
Proof.
  unfold JsObject.keys. rewrite list_elem_of_fmap. split.
  - intros ([k c] & -> & Hin). by exists c.
  - intros (c & Hin). by exists (id, c).
Qed.

Lemma NoDup_keys_filter (P : string * Conversation → Prop)
    `{!∀ e, Decision (P e)} (es : list (string * Conversation)) :
  NoDup (JsObject.keys es) →
  NoDup (item_id <$> (make_item <$> filter P es)).
Proof.
  unfold JsObject.keys. rewrite <- list_fmap_compose.
  induction es as [|[k c] es IH]; simpl; [constructor|].
  rewrite NoDup_cons. intros [Hk Hnd]. rewrite filter_cons.
  destruct (decide (P (k, c))); simpl; [|by apply IH].
  apply NoDup_cons. split; [|by apply IH].
  intros Hin. apply Hk. apply list_elem_of_fmap in Hin as ([k' c'] & Heq & Hin).
  simpl in Heq. subst k'. apply list_elem_of_filter in Hin as [_ Hin].
  apply list_elem_of_fmap. by exists (k, c').
Qed.

(** C9, as amended: the two derived lists partition the map that the
    sidebar shows, which is the store's conversation map when no search is
    active and the search result while one is.  Every id of that map other
    than ["default"] is in the pinned list iff it is pinned and in the
    ordinary list iff it is not, no id is in both, ["default"] is in
    neither, the lists hold nothing but ids of that map, and an id occurs
    once in the list it is in. *)
Theorem lists_partition (conversationList : JsObject.t Conversation)
    (conversations : option (JsObject.t Conversation)) (pinned : list string) :
  let shown := match conversations with
               | None => conversationList
               | Some found => found
               end in
  let list_ := item_id <$> (lists conversationList conversations pinned).1 in
  let pinnedList := item_id <$> (lists conversationList conversations pinned).2 in
  (∀ id, id ∈ pinnedList ↔ id ∈ JsObject.keys shown ∧ id ≠ "default" ∧ id ∈ pinned)
  ∧ (∀ id, id ∈ list_ ↔ id ∈ JsObject.keys shown ∧ id ≠ "default" ∧ id ∉ pinned)
  ∧ (∀ id, ¬ (id ∈ list_ ∧ id ∈ pinnedList))
  ∧ ("default" ∉ list_)
  ∧ ("default" ∉ pinnedList)
  ∧ (NoDup (JsObject.keys shown) → NoDup (pinnedList ++ list_)).
Proof.
  intros shown list_ pinnedList. subst list_ pinnedList.
  rewrite lists_filter; simpl. unfold sources. fold shown.
  assert (Hp : ∀ id, id ∈ item_id <$> (make_item <$> filter (listed_pinned pinned) shown)
                 ↔ id ∈ JsObject.keys shown ∧ id ≠ "default" ∧ id ∈ pinned).
  { intros id. rewrite item_ids_filter, key_elem. unfold listed_pinned; simpl.
    split; [intros (c & ? & ? & ?); eauto | intros ((c & ?) & ? & ?); eauto]. }
  assert (Hl : ∀ id, id ∈ item_id <$> (make_item <$> filter (listed pinned) shown)
                 ↔ id ∈ JsObject.keys shown ∧ id ≠ "default" ∧ id ∉ pinned).
  { intros id. rewrite item_ids_filter, key_elem. unfold listed; simpl.
    split; [intros (c & ? & ? & ?); eauto | intros ((c & ?) & ? & ?); eauto]. }
  split; [exact Hp|]. split; [exact Hl|].
  split; [|split; [|split]].
  - intros id [H1 H2]. apply Hl in H1 as (_ & _ & Hn). apply Hp in H2 as (_ & _ & Hy).
    by apply Hn.
  - intros H. apply Hl in H as (_ & Hd & _). by apply Hd.
  - intros H. apply Hp in H as (_ & Hd & _). by apply Hd.
  - intros Hnd. apply NoDup_app. split; [by apply NoDup_keys_filter|].
    split; [|by apply NoDup_keys_filter].
    intros id H1 H2. apply Hl in H2 as (_ & _ & Hn). apply Hp in H1 as (_ & _ & Hy).
    by apply Hn.
Qed.

(** C9, as stated for the conversation map of the store, fails while a
    search is active: after a search for [hello] the pinned conversation
    [b] of the store, which the search does not find, is in neither list,
    and the ordinary list holds [a] only. *)
Lemma lists_search_counterexample :
  let conversations :=
    handleSearch RegExp.literal "hello" listWithPinned None in
  "b" ∈ JsObject.keys listWithPinned
  ∧ "b" ≠ "default"
  ∧ item_id <$> (lists listWithPinned conversations ["b"]).1 = ["a"]
  ∧ item_id <$> (lists listWithPinned conversations ["b"]).2 = []
  ∧ ("b" ∉ (item_id <$> (lists listWithPinned conversations ["b"]).1))
  ∧ ("b" ∉ (item_id <$> (lists listWithPinned conversations ["b"]).2)).
Proof.
  simpl. split; [by apply (bool_decide_unpack _)|]. split; [discriminate|].
  split; [reflexivity|]. split; [reflexivity|].
  split; by apply (bool_decide_unpack _).
Qed.

(** ** Search leaves the heap it is given untouched *)
Module HeapFacts.

Lemma view_Some (h : Heap.heap) (fields : JsObject.t Heap.loc)
    (data : JsObject.t Conversation) :
  Heap.view h fields = Some data ↔ Forall2 (Heap.denotes h) fields data.
Proof.
  unfold Heap.view. rewrite mapM_Some.
  split; intros H; eapply Forall2_impl; try exact H;
    intros [k l] [k' c]; unfold Heap.denotes; simpl.
  - destruct (Heap.readConversation l h); simpl; [intros [= -> ->]; done | done].
  - intros [-> Hr]. by rewrite Hr.
Qed.

Lemma view_is_Some (h : Heap.heap) (fields : JsObject.t Heap.loc) :
  (∀ id l, (id, l) ∈ fields → is_Some (Heap.readConversation l h)) →
  is_Some (Heap.view h fields).
Proof.
  induction fields as [|[k l] fields IH]; intros Hall.
  - by exists [].
  - destruct (Hall k l) as [c Hc]; [apply list_elem_of_here|].
    destruct IH as [data Hdata].
    { intros id l' Hin. apply (Hall id l'). by apply list_elem_of_further. }
    exists ((k, c) :: data). apply view_Some. constructor.
    + by split.
    + by apply view_Some.
Qed.

Lemma denotes_set (h : Heap.heap) (fields : JsObject.t Heap.loc)
    (data : JsObject.t Conversation) (id : string) (item : Heap.loc)
    (c : Conversation) :
  Forall2 (Heap.denotes h) fields data →
  Heap.readConversation item h = Some c →
  Forall2 (Heap.denotes h) (JsObject.set id item fields) (JsObject.set id c data).
Proof.
  intros Hall Hc. induction Hall as [|[k l] [k' c'] fields data [Hk Hl] Hall IH];
    simpl in *.
  - constructor; [by split | constructor].
  - subst k'. destruct (decide (k = id)).
    + constructor; [by split | done].
    + constructor; [by split | done].
Qed.

Lemma readConversation_insert_record (h : Heap.heap) (o l : Heap.loc) (c : Conversation)
    (fields : JsObject.t Heap.loc) :
  Heap.readConversation l h = Some c →
  is_Some (Heap.readRecord o h) →
  Heap.readConversation l (<[o := Heap.RecordObject fields]> h) = Some c.
Proof.
  unfold Heap.readConversation, Heap.readRecord. intros Hl [old Ho].
  destruct (decide (o = l)) as [->|Hne].
  - destruct (h !! l) as [[?|?]|]; simplify_eq.
  - by rewrite lookup_insert_ne.
Qed.

Lemma searching_read (h0 h : Heap.heap) (res l : Heap.loc)
    (found : JsObject.t Conversation) (c : Conversation) :
  Heap.searching h0 res h found →
  Heap.readConversation l h0 = Some c →
  Heap.readConversation l h = Some c.
Proof.
  intros ([old Hold] & _ & Hsame) Hl.
  unfold Heap.readConversation. rewrite Hsame; [done|].
  intros ->. unfold Heap.readRecord, Heap.readConversation in *.
  destruct (h0 !! res) as [[?|?]|]; simplify_eq.
Qed.

Lemma searching_assign (h0 h : Heap.heap) (res item : Heap.loc)
    (found : JsObject.t Conversation) (id : string) (c : Conversation) :
  Heap.searching h0 res h found →
  Heap.readConversation item h0 = Some c →
  ∃ h', Heap.assign res id item h = Some h'
        ∧ Heap.searching h0 res h' (JsObject.set id c found).
Proof.
  intros Hs Hitem. pose proof (searching_read _ _ _ _ _ _ Hs Hitem) as Hitem'.
  destruct Hs as (Hold & (fields & Hr & Hall) & Hsame).
  unfold Heap.assign. rewrite Hr; simpl. eexists; split; [reflexivity|].
  split; [done|]. split.
  - exists (JsObject.set id item fields). split.
    + unfold Heap.readRecord. by rewrite lookup_insert_eq.
    + apply denotes_set.
      * eapply Forall2_impl; [exact Hall|]. intros x y [Hk Hx]. split; [done|].
        apply readConversation_insert_record; [done | by exists fields].
      * apply readConversation_insert_record; [done | by exists fields].
  - intros l Hl. rewrite lookup_insert_ne by done. by apply Hsame.
Qed.

(** Each step over the heap does what the step over records does. *)
Lemma search_part_sim (h0 h : Heap.heap) (res item : Heap.loc)
    (id : string) (c : Conversation) (st : SearchState) (part : Part) :
  Heap.searching h0 res h (results st) →
  Heap.readConversation item h0 = Some c →
  ∃ h', Heap.search_part res id item (Some (regex st, h)) part
        = Some (regex (search_part id c st part), h')
        ∧ Heap.searching h0 res h' (results (search_part id c st part)).
Proof.
  intros Hs Hitem. unfold Heap.search_part, search_part; simpl.
  destruct (text part) as [t|]; [|by exists h].
  destruct (Str.truthy t); [|by exists h].
  destruct (RegExp.test t (regex st)) as [[|] r']; simpl.
  - destruct (searching_assign _ _ _ _ _ id _ Hs Hitem) as (h' & -> & Hs').
    by exists h'.
  - by exists h.
Qed.

Lemma search_parts_sim (h0 : Heap.heap) (res item : Heap.loc)
    (id : string) (c : Conversation) (ps : list Part) (h : Heap.heap)
    (st : SearchState) :
  Heap.searching h0 res h (results st) →
  Heap.readConversation item h0 = Some c →
  ∃ h', foldl (Heap.search_part res id item) (Some (regex st, h)) ps
        = Some (regex (foldl (search_part id c) st ps), h')
        ∧ Heap.searching h0 res h'
            (results (foldl (search_part id c) st ps)).
Proof.
  intros Hs Hitem. revert h st Hs.
  induction ps as [|part ps IH]; intros h st Hs; cbn [foldl]; [by exists h|].
  destruct (search_part_sim _ _ _ _ id _ _ part Hs Hitem) as (h1 & -> & Hs1).
  by apply IH.
Qed.

Lemma search_messages_sim (h0 : Heap.heap) (res item : Heap.loc)
    (id : string) (c : Conversation) (ms : list Message) (h : Heap.heap)
    (st : SearchState) :
  Heap.searching h0 res h (results st) →
  Heap.readConversation item h0 = Some c →
  ∃ h', foldl (λ st message,
                 foldl (Heap.search_part res id item) st (parts message))
              (Some (regex st, h)) ms
        = Some (regex (foldl (λ st message,
                                foldl (search_part id c) st (parts message))
                             st ms), h')
        ∧ Heap.searching h0 res h'
            (results (foldl (λ st message,
                                 foldl (search_part id c) st (parts message))
                              st ms)).
Proof.
  intros Hs Hitem. revert h st Hs.
  induction ms as [|m ms IH]; intros h st Hs; cbn [foldl]; [by exists h|].
  destruct (search_parts_sim _ _ _ id _ (parts m) _ _ Hs Hitem) as (h1 & -> & Hs1).
  by apply IH.
Qed.

Lemma search_entry_sim (h0 h : Heap.heap) (res item : Heap.loc)
    (id : string) (c : Conversation) (st : SearchState) :
  Heap.searching h0 res h (results st) →
  Heap.readConversation item h0 = Some c →
  ∃ h', Heap.search_entry res (Some (regex st, h)) (id, item)
        = Some (regex (search_entry st (id, c)), h')
        ∧ Heap.searching h0 res h' (results (search_entry st (id, c))).
Proof.
  intros Hs Hitem. pose proof (searching_read _ _ _ _ _ _ Hs Hitem) as Hr.
  unfold Heap.search_entry, search_entry; simpl. rewrite Hr; simpl.
  destruct (RegExp.test (title c) (regex st)) as [[|] r1].
  - destruct (searching_assign _ _ _ _ _ id _ Hs Hitem) as (h1 & -> & Hs1); simpl.
    rewrite (searching_read _ _ _ _ _ _ Hs1 Hitem); simpl.
    by apply (search_messages_sim h0 res item id c (messages c) h1
                {| regex := r1; results := JsObject.set id c (results st) |}).
  - destruct (RegExp.test (systemInstruction c) r1) as [[|] r2].
    + destruct (searching_assign _ _ _ _ _ id _ Hs Hitem) as (h1 & -> & Hs1); simpl.
      rewrite (searching_read _ _ _ _ _ _ Hs1 Hitem); simpl.
      by apply (search_messages_sim h0 res item id c (messages c) h1
                  {| regex := r2; results := JsObject.set id c (results st) |}).
    + simpl. rewrite Hr; simpl.
      by apply (search_messages_sim h0 res item id c (messages c) h
                  {| regex := r2; results := results st |}).
Qed.

Lemma search_entries_sim (h0 : Heap.heap) (res : Heap.loc)
    (fields : JsObject.t Heap.loc) (data : JsObject.t Conversation) :
  Forall2 (Heap.denotes h0) fields data →
  ∀ (h : Heap.heap) (st : SearchState),
    Heap.searching h0 res h (results st) →
    ∃ h', foldl (Heap.search_entry res) (Some (regex st, h)) fields
          = Some (regex (foldl search_entry st data), h')
          ∧ Heap.searching h0 res h' (results (foldl search_entry st data)).
Proof.
  induction 1 as [|[k l] [k' c] fields data [Hk Hl] Hall IH]; intros h st Hs;
    cbn [foldl]; [by exists h|].
  simpl in Hk, Hl. subst k'.
  destruct (search_entry_sim _ _ _ _ k _ _ Hs Hl) as (h1 & -> & Hs1).
  by apply IH.
Qed.

(** C5: [search] reads the conversation map and its records and writes to
    the object it allocates only.  For a heap in which [data] is a map whose
    values are [Conversation] records, and a keyword that compiles, the call
    returns a reference [res] that is not allocated in the heap it was
    given; every object of that heap, so the map and each record in it, is
    the same afterwards; and the returned map denotes what [search]
    computes on the records. *)
Theorem search_pure (compile : string → option RegExp.Matcher)
    (keyword : string) (data : Heap.loc) (h : Heap.heap)
    (fields : JsObject.t Heap.loc) (m : RegExp.Matcher) :
  compile (Str.trim keyword) = Some m →
  Heap.readRecord data h = Some fields →
  (∀ id l, (id, l) ∈ fields → is_Some (Heap.readConversation l h)) →
  ∃ res h' shown found,
    Heap.search compile keyword data h = Some (res, h')
    ∧ h !! res = None
    ∧ (∀ l, is_Some (h !! l) → h' !! l = h !! l)
    ∧ Heap.readRecord data h' = Some fields
    ∧ Heap.view h fields = Some shown
    ∧ Heap.view h' fields = Some shown
    ∧ (∃ refs, Heap.readRecord res h' = Some refs
               ∧ Heap.view h' refs = Some found)
    ∧ search compile keyword shown = Some found.
Proof.
  intros Hm Hdata Hall.
  destruct (view_is_Some h fields Hall) as [shown Hshown].
  set (res := fresh (dom h)).
  assert (h !! res = None) as Hres by (apply not_elem_of_dom, is_fresh).
  set (h0 := <[res := Heap.RecordObject JsObject.empty]> h).
  assert (∀ l, is_Some (h !! l) → l ≠ res) as Hne.
  { intros l [o Ho] ->. by rewrite Hres in Ho. }
  assert (∀ l c, Heap.readConversation l h = Some c →
                 Heap.readConversation l h0 = Some c) as Hkeep.
  { intros l c Hl. unfold Heap.readConversation, h0 in *.
    rewrite lookup_insert_ne; [done|]. intros <-. by rewrite Hres in Hl. }
  assert (Forall2 (Heap.denotes h0) fields shown) as Hden.
  { apply view_Some in Hshown. eapply Forall2_impl; [exact Hshown|].
    intros x y [Hk Hx]. split; [done | by apply Hkeep]. }
  assert (Heap.searching h0 res h0 []) as Hs.
  { split; [|split].
    - exists []. unfold Heap.readRecord, h0. by rewrite lookup_insert_eq.
    - exists []. split; [|constructor].
      unfold Heap.readRecord, h0. by rewrite lookup_insert_eq.
    - done. }
  destruct (search_entries_sim h0 res fields shown Hden h0
              {| regex := RegExp.create m; results := [] |} Hs)
    as (h' & Hfold & Hs').
  simpl in Hfold.
  set (st' := foldl search_entry
                {| regex := RegExp.create m; results := [] |} shown) in *.
  assert (Heap.readRecord data h0 = Some fields) as Hdata0.
  { unfold Heap.readRecord, h0 in *. rewrite lookup_insert_ne; [done|].
    intros <-. by rewrite Hres in Hdata. }
  destruct Hs' as (_ & (refs & Hrefs & Hfound) & Hsame).
  assert (∀ l, is_Some (h !! l) → h' !! l = h !! l) as Hframe.
  { intros l Hl. rewrite Hsame by by apply Hne.
    unfold h0. rewrite lookup_insert_ne; [done|]. intros E. by apply (Hne l). }
  exists res, h', shown, (results st').
  split.
  { unfold Heap.search. fold res. fold h0. rewrite Hm; simpl.
    rewrite Hdata0; simpl. unfold JsObject.entries.
    unfold JsObject.empty in *. by rewrite Hfold. }
  split; [done|]. split; [done|]. split.
  { unfold Heap.readRecord in *. rewrite Hframe; [done|].
    destruct (h !! data); [by eexists | done]. }
  split; [done|]. split.
  { apply view_Some. apply view_Some in Hshown.
    eapply Forall2_impl; [exact Hshown|]. intros x y [Hk Hx]. split; [done|].
    unfold Heap.readConversation in *. rewrite Hframe; [done|].
    destruct (h !! x.2); [by eexists | done]. }
  split.
  { exists refs. split; [done | by apply view_Some]. }
  unfold search. rewrite Hm. reflexivity.
Qed.

(** A search over a heap with one conversation. *)
Lemma search_pure_witness :
  ∃ res h',
    Heap.search RegExp.literal "hello" 1%positive searchedHeap = Some (res, h')
    ∧ searchedHeap !! res = None
    ∧ h' !! 1%positive = searchedHeap !! 1%positive
    ∧ h' !! 2%positive = searchedHeap !! 2%positive.
Proof.
  destruct (search_pure RegExp.literal "hello" 1%positive searchedHeap
              [("a", 2%positive)]
              (λ s start, RegExp.exec_literal "hello" s 0 start)
              eq_refl eq_refl)
    as (res & h' & shown & found & Hrun & Hfresh & Hframe & _).
  - intros id l Hin. apply list_elem_of_singleton in Hin as [= -> ->].
    by eexists.
  - exists res, h'. split; [exact Hrun|]. split; [exact Hfresh|].
    split; apply Hframe; by eexists.
Defined.

End HeapFacts.

(** ** Search with a global expression *)

(** C3 fails on the code.  The keyword [hello] matches the title
    ["Hello World"] and the part ["hello there"], yet for the map that holds
    the conversation with the part first and the titled one second [search]
    returns the first entry only: the expression is global, the hit in the
    part leaves [lastIndex] at 5, and the test of the title starts there.
    With the entries in the other order both are returned, and [zzz]
    returns the empty map. *)
Theorem search_global_flag_misses_entry :
  (∃ m, RegExp.literal "hello" = Some m
        ∧ RegExp.matches m "Hello World" = true
        ∧ RegExp.matches m "hello there" = true)
  ∧ search RegExp.literal "hello"
           [("a", saying "hello there"); ("b", titled "Hello World")]
    = Some [("a", saying "hello there")]
  ∧ search RegExp.literal "hello"
           [("b", titled "Hello World"); ("a", saying "hello there")]
    = Some [("b", titled "Hello World"); ("a", saying "hello there")]
  ∧ search RegExp.literal "zzz"
           [("a", saying "hello there"); ("b", titled "Hello World")]
    = Some [].
Proof.
  split; [eexists; split; [reflexivity|]; split; reflexivity|].
  split; [reflexivity|]. split; reflexivity.
Qed.

(** ** Title summarization interleaved with user actions *)

(** What a sequence of user actions leads to is reachable. *)
Lemma reachable_perform (actions : list UserAction) (w w' : World) :
  reachable w → run (perform actions) w = Some w' → reachable w'.
Proof.
  revert w. induction actions as [|a actions IH]; intros w Hw.
  - intros [= <-]. exact Hw.
  - unfold run. cbn [perform]. unfold mbind at 1, Action_bind at 1.
    destruct (user a w) as [[[] w1]|] eqn:E; [|discriminate].
    apply IH. apply (reachable_user a w); [exact Hw|].
    unfold run. by rewrite E.
Qed.

(** The two scenarios are reached from the start by user actions. *)
Lemma secondOpen_reachable : reachable secondOpen.
Proof.
  apply (reachable_perform
           [New "x00000000001"; New "y00000000002"; Select "x00000000001";
            EditTitle "Groceries"; Select "y00000000002"] initialWorld);
    [apply reachable_init | reflexivity].
Qed.

Lemma firstOpen_reachable : reachable firstOpen.
Proof.
  apply (reachable_perform [Select "x00000000001"] secondOpen);
    [apply secondOpen_reachable | reflexivity].
Qed.

(** A chunk is written to the list entry of the id the handler was called
    with, and to nothing else. *)
Lemma summary_chunk_writes_entry (decode : list Byte.byte → string)
    (value : list Byte.byte) (t : SummaryTask) (w : World) :
  ∃ t' w',
    summary_chunk decode value t w = Some (t', w')
    ∧ task_id t' = task_id t
    ∧ task_currentId t' = task_currentId t
    ∧ task_content t' = String.append (task_content t) (decode value)
    ∧ messageStore w' = messageStore w
    ∧ currentId (conversationStore w') = currentId (conversationStore w)
    ∧ JsObject.get (task_id t) (conversationList (conversationStore w'))
      = Some (with_title (task_conversation t) (task_content t'))
    ∧ ∀ k, k ≠ task_id t →
           JsObject.get k (conversationList (conversationStore w'))
           = JsObject.get k (conversationList (conversationStore w)).
Proof.
  unfold summary_chunk, mbind, Action_bind; simpl.
  eexists _, _. split; [reflexivity|]; simpl. repeat split.
  - apply JsObjectFacts.get_set_eq.
  - intros k Hk. by apply JsObjectFacts.get_set_ne.
Qed.

(** At the end of the stream the live title is written exactly when the id
    equals the current id that was read when the handler was called. *)
Lemma summary_end_writes (t : SummaryTask) (w : World) :
  ∃ w',
    summary_end t w = Some (tt, w')
    ∧ conversationStore w' = conversationStore w
    ∧ (task_id t = task_currentId t →
       live_title (messageStore w') = task_content t)
    ∧ (task_id t ≠ task_currentId t → w' = w).
Proof.
  unfold summary_end. destruct (decide (task_id t = task_currentId t)) as [E|E].
  - eexists. split; [reflexivity|]. simpl. by repeat split.
  - exists w. by repeat split.
Qed.

(** C2 fails on the code.  A summarization of ["y00000000002"] starts
    while that conversation is open; after the first chunk the user opens
    ["x00000000001"].  When the stream ends the handler compares its id with
    the current id it read when it was called, finds them equal and calls
    [setTitle]: the live title, which is now that of ["x00000000001"] and
    was [Groceries] up to the end of the stream, becomes [Weekend]. *)
Theorem summary_overwrites_live_title_after_switch :
  let events := [Chunk (bytes "Week"); User (Select "x00000000001");
                 Chunk (bytes "end")] in
  currentId (conversationStore secondOpen) = "y00000000002"
  ∧ (∃ request t w1 t1 w2,
       summary_begin token someSetting "y00000000002" secondOpen
         = Some ((request, t), w1)
       ∧ summary_loop string_of_list_byte t events w1 = Some (t1, w2)
       ∧ currentId (conversationStore w2) = "x00000000001"
       ∧ live_title (messageStore w2) = "Groceries"
       ∧ title <$> JsObject.get "y00000000002"
                     (conversationList (conversationStore w2)) = Some "Weekend")
  ∧ ∃ w',
      run (handleSummaryTitle token string_of_list_byte someSetting
             "y00000000002" events) secondOpen = Some w'
      ∧ currentId (conversationStore w') = "x00000000001"
      ∧ live_title (messageStore w') = "Weekend".
Proof.
  split; [reflexivity|]. split.
  - do 5 eexists. split; [reflexivity|]. split; [reflexivity|].
    repeat split; reflexivity.
  - eexists. split; [reflexivity|]. split; reflexivity.
Qed.

(** C4 fails on the code in both directions, for the reason given at C2:
    the test after the loop uses the current id read at the call.  A
    summarization of ["y00000000002"] that starts while ["x00000000001"] is
    open, during which the user opens ["y00000000002"], ends with
    ["y00000000002"] current, the stored title [Weekend] and the live title
    still [Week]: the live title is not written.  One that starts while
    ["y00000000002"] is open, during which the user opens ["x00000000001"],
    writes the live title although its conversation is not current at the
    end. *)
Theorem summary_end_uses_stale_current_id :
  (∃ w',
     run (handleSummaryTitle token string_of_list_byte someSetting "y00000000002"
            [Chunk (bytes "Week"); User (Select "y00000000002");
             Chunk (bytes "end")]) firstOpen = Some w'
     ∧ currentId (conversationStore w') = "y00000000002"
     ∧ title <$> JsObject.get "y00000000002"
                   (conversationList (conversationStore w')) = Some "Weekend"
     ∧ live_title (messageStore w') = "Week")
  ∧ (∃ w',
       run (handleSummaryTitle token string_of_list_byte someSetting "y00000000002"
              [User (Select "x00000000001"); Chunk (bytes "Weekend")])
           secondOpen = Some w'
       ∧ currentId (conversationStore w') = "x00000000001"
       ∧ live_title (messageStore w') = "Weekend").
Proof.
  split.
  - eexists. split; [reflexivity|]. repeat split; reflexivity.
  - eexists. split; [reflexivity|]. split; reflexivity.
Qed.

(** ** Displayed titles *)

(** C7, as amended: every conversation item of the pinned and of the
    ordinary list, that is every shown conversation other than ["default"],
    is displayed under the title of its entry when that title is not empty
    and under the localized label [t "chatAnything"] when it is; the fixed
    item of ["default"] is displayed under [t "defaultConversation"],
    whatever the stored title of that conversation is (and under
    [t "chatAnything"] should that label be empty). *)
Theorem AppSidebar_titles (t : string → string)
    (conversationList : JsObject.t Conversation)
    (conversations : option (JsObject.t Conversation))
    (pinned : list string) (currentId : string) (p : Props) :
  p ∈ AppSidebar_items t conversationList conversations pinned currentId →
  (props_id p ≠ "default" →
   ∃ c, (props_id p, c) ∈ match conversations with
                          | None => conversationList
                          | Some found => found
                          end
        ∧ (title c = "" → rendered_title t p = t "chatAnything")
        ∧ (title c ≠ "" → rendered_title t p = title c))
  ∧ (props_id p = "default" →
     (t "defaultConversation" ≠ "" →
      rendered_title t p = t "defaultConversation")
     ∧ (t "defaultConversation" = "" →
        rendered_title t p = t "chatAnything")).
Proof.
  unfold AppSidebar_items. rewrite lists_filter; simpl. unfold sources.
  intros Hin. apply elem_of_cons in Hin as [->|Hin].
  - split; [done|]. intros _. unfold rendered_title, conversationTitle; simpl.
    split; intros H.
    + by rewrite bool_decide_eq_false_2.
    + by rewrite bool_decide_eq_true_2.
  - assert (∃ k c, (k, c) ∈ match conversations with
                             | None => conversationList
                             | Some found => found
                             end
                   ∧ k ≠ "default" ∧ props_id p = k ∧ props_title p = title c)
      as (k & c & Hkc & Hk & Hid & Ht).
    { apply elem_of_app in Hin as [Hin|Hin];
        apply list_elem_of_fmap in Hin as (item & -> & Hin);
        apply list_elem_of_fmap in Hin as ([k c] & -> & Hin);
        apply list_elem_of_filter in Hin as [[Hk _] Hin];
        exists k, c; by repeat split. }
    split; [|by rewrite Hid].
    intros _. exists c. rewrite Hid. split; [done|].
    unfold rendered_title, conversationTitle. rewrite Ht. split; intros H.
    + by rewrite bool_decide_eq_true_2.
    + by rewrite bool_decide_eq_false_2.
Qed.

(** The item of the first of two created conversations, which has the
    title [Groceries]. *)
Lemma AppSidebar_titles_witness :
  ∃ c,
    ("x00000000001", c) ∈ conversationList (conversationStore secondOpen)
    ∧ (title c = "" →
       rendered_title (λ key, key)
         {| props_id := "x00000000001"; props_title := "Groceries";
            props_pinned := false; props_isActive := false |}
       = "chatAnything")
    ∧ (title c ≠ "" →
       rendered_title (λ key, key)
         {| props_id := "x00000000001"; props_title := "Groceries";
            props_pinned := false; props_isActive := false |}
       = title c).
Proof.
  apply (proj1 (AppSidebar_titles (λ key, key)
                  (conversationList (conversationStore secondOpen)) None []
                  "y00000000002"
                  {| props_id := "x00000000001"; props_title := "Groceries";
                     props_pinned := false; props_isActive := false |}
                  (list_elem_of_further _ _ _ (list_elem_of_here _ _)))).
  discriminate.
Defined.

(** C7, as stated, fails for the item of ["default"]: in the reachable
    state [defaultRenamed] the stored title of ["default"] is [My chat],
    not empty, and the sidebar shows the item of ["default"] under the
    label of [defaultConversation] (here the key itself), not under
    [My chat]. *)
Lemma default_title_counterexample :
  reachable defaultRenamed
  ∧ title <$> JsObject.get "default"
                (conversationList (conversationStore defaultRenamed))
    = Some "My chat"
  ∧ ∃ p,
      p ∈ AppSidebar_items (λ key, key)
            (conversationList (conversationStore defaultRenamed)) None
            (pinned (conversationStore defaultRenamed))
            (currentId (conversationStore defaultRenamed))
      ∧ props_id p = "default"
      ∧ rendered_title (λ key, key) p = "defaultConversation"
      ∧ rendered_title (λ key, key) p ≠ "My chat".
Proof.
  split; [|split].
  - apply (reachable_perform
             [New "x00000000001"; Select "default"; EditTitle "My chat";
              Select "x00000000001"] initialWorld);
      [apply reachable_init | reflexivity].
  - reflexivity.
  - eexists. split; [apply list_elem_of_here|].
    split; [reflexivity|]. split; [reflexivity | discriminate].
Qed.

(** ** Model options *)

Lemma elem_keys_get {V : Type} (k : string) (o : JsObject.t V) :
  k ∈ JsObject.keys o ↔ is_Some (JsObject.get k o).
Proof.
  destruct (JsObject.get k o) as [v|] eqn:E.
  - split; [by eexists|]. intros _.
    destruct (decide (k ∈ JsObject.keys o)) as [|Hn]; [done|].
    apply JsObjectFacts.get_None_keys in Hn. congruence.
  - split; [|by intros [? ?]]. intros Hin.
    by apply JsObjectFacts.get_None_keys in E.
Qed.

Lemma keys_set_here {V : Type} (k : string) (v : V) (o : JsObject.t V) :
  k ∈ JsObject.keys (JsObject.set k v o).
Proof. apply elem_keys_get. rewrite JsObjectFacts.get_set_eq. by eexists. Qed.

Lemma keys_set_mono {V : Type} (k k' : string) (v : V) (o : JsObject.t V) :
  k ∈ JsObject.keys o → k ∈ JsObject.keys (JsObject.set k' v o).
Proof.
  rewrite !elem_keys_get. intros H. destruct (decide (k' = k)) as [->|Hne].
  - rewrite JsObjectFacts.get_set_eq. by eexists.
  - by rewrite JsObjectFacts.get_set_ne.
Qed.

(** *** Assignment with array indices *)

Lemma insert_index_keys {V : Type} (i : N) (k : string) (v : V)
    (o : JsObject.t V) (x : string) :
  x ∈ JsObject.keys (JsObject.insert_index i k v o)
  ↔ x = k ∨ x ∈ JsObject.keys o.
Proof.
  unfold JsObject.keys. induction o as [|[k' v'] o IH]; cbn [JsObject.insert_index].
  - cbn [fmap list_fmap fst]. by rewrite elem_of_cons.
  - destruct (JsObject.array_index k') as [j|].
    + destruct (j <? i)%N.
      * cbn [fmap list_fmap fst] in *. rewrite !elem_of_cons, IH. tauto.
      * cbn [fmap list_fmap fst]. by rewrite !elem_of_cons.
    + cbn [fmap list_fmap fst]. by rewrite !elem_of_cons.
Qed.

Lemma insert_index_sublist {V : Type} (i : N) (k : string) (v : V)
    (o : JsObject.t V) :
  JsObject.keys o `sublist_of` JsObject.keys (JsObject.insert_index i k v o).
Proof.
  unfold JsObject.keys. induction o as [|[k' v'] o IH]; cbn [JsObject.insert_index].
  - apply sublist_nil_l.
  - destruct (JsObject.array_index k') as [j|].
    + destruct (j <? i)%N.
      * cbn [fmap list_fmap fst] in *. by apply sublist_skip.
      * cbn [fmap list_fmap fst]. by apply sublist_cons.
    + cbn [fmap list_fmap fst]. by apply sublist_cons.
Qed.

Lemma insert_index_NoDup {V : Type} (i : N) (k : string) (v : V)
    (o : JsObject.t V) :
  k ∉ JsObject.keys o → NoDup (JsObject.keys o) →
  NoDup (JsObject.keys (JsObject.insert_index i k v o)).
Proof.
  unfold JsObject.keys. induction o as [|[k' v'] o IH]; cbn [JsObject.insert_index].
  - intros _ _. apply NoDup_singleton.
  - intros Hk Hnd. destruct (JsObject.array_index k') as [j|];
      [destruct (j <? i)%N|]; try (by apply NoDup_cons).
    cbn [fmap list_fmap fst] in *. apply NoDup_cons in Hnd as [Hk' Hnd].
    apply not_elem_of_cons in Hk as [Hne Hk].
    apply NoDup_cons. split; [|by apply IH].
    intros Hin. apply (insert_index_keys i k v o k') in Hin as [->|Hin]; done.
Qed.

Lemma keys_set_sublist {V : Type} (k : string) (v : V) (o : JsObject.t V) :
  JsObject.keys o `sublist_of` JsObject.keys (JsObject.set k v o).
Proof.
  destruct (JsObject.get k o) as [v0|] eqn:E.
  - rewrite JsObjectFacts.keys_set_in; [done | by eexists].
  - rewrite JsObjectFacts.keys_set_fresh by done. by apply sublist_inserts_r.
Qed.

Lemma keys_set_NoDup {V : Type} (k : string) (v : V) (o : JsObject.t V) :
  NoDup (JsObject.keys o) → NoDup (JsObject.keys (JsObject.set k v o)).
Proof.
  intros Hnd. destruct (JsObject.get k o) as [v0|] eqn:E.
  - rewrite JsObjectFacts.keys_set_in; [done | by eexists].
  - rewrite JsObjectFacts.keys_set_fresh by done.
    apply NoDup_app. split; [done|]. split; [|apply NoDup_singleton].
    intros x Hx Hk. apply list_elem_of_singleton in Hk as ->.
    by apply JsObjectFacts.get_None_keys in E.
Qed.

Lemma assign_keys_mono {V : Type} (k k' : string) (v : V) (o : JsObject.t V) :
  k ∈ JsObject.keys o → k ∈ JsObject.keys (JsObject.assign k' v o).
Proof.
  intros Hk. unfold JsObject.assign. destruct (bool_decide _); [done|].
  destruct (JsObject.get k' o); [by apply keys_set_mono|].
  destruct (JsObject.array_index k') as [i|]; [|by apply keys_set_mono].
  apply insert_index_keys. by right.
Qed.

Lemma assign_keys_here {V : Type} (k : string) (v : V) (o : JsObject.t V) :
  k ≠ "__proto__" → k ∈ JsObject.keys (JsObject.assign k v o).
Proof.
  intros Hk. unfold JsObject.assign. rewrite bool_decide_eq_false_2 by done.
  destruct (JsObject.get k o); [apply keys_set_here|].
  destruct (JsObject.array_index k) as [i|]; [|apply keys_set_here].
  apply insert_index_keys. by left.
Qed.

Lemma assign_keys_sublist {V : Type} (k : string) (v : V) (o : JsObject.t V) :
  JsObject.keys o `sublist_of` JsObject.keys (JsObject.assign k v o).
Proof.
  unfold JsObject.assign. destruct (bool_decide _); [done|].
  destruct (JsObject.get k o); [apply keys_set_sublist|].
  destruct (JsObject.array_index k) as [i|]; [|apply keys_set_sublist].
  apply insert_index_sublist.
Qed.

Lemma assign_keys_NoDup {V : Type} (k : string) (v : V) (o : JsObject.t V) :
  NoDup (JsObject.keys o) → NoDup (JsObject.keys (JsObject.assign k v o)).
Proof.
  intros Hnd. unfold JsObject.assign. destruct (bool_decide _); [done|].
  destruct (JsObject.get k o) eqn:E; [by apply keys_set_NoDup|].
  destruct (JsObject.array_index k) as [i|]; [|by apply keys_set_NoDup].
  apply insert_index_NoDup; [|done]. by apply JsObjectFacts.get_None_keys.
Qed.

(** For a key that is neither an array index nor [__proto__] the two
    assignments agree. *)
Lemma assign_set {V : Type} (k : string) (v : V) (o : JsObject.t V) :
  JsObject.array_index k = None → k ≠ "__proto__" →
  JsObject.assign k v o = JsObject.set k v o.
Proof.
  intros Hi Hp. unfold JsObject.assign. rewrite bool_decide_eq_false_2 by done.
  rewrite Hi. by destruct (JsObject.get k o).
Qed.

(** So do they for an array index that is assigned after smaller array
    indices only, as when an object is filled in the enumeration order of
    another one. *)
Lemma assign_in_order {V : Type} (k : string) (v : V) (o : JsObject.t V)
    (i : N) :
  k ≠ "__proto__" →
  JsObject.array_index k = Some i →
  Forall (λ k', ∃ j, JsObject.array_index k' = Some j ∧ (j < i)%N)
         (JsObject.keys o) →
  JsObject.assign k v o = JsObject.set k v o.
Proof.
  intros Hp Hi Hall. unfold JsObject.assign.
  rewrite bool_decide_eq_false_2 by done. rewrite Hi.
  destruct (JsObject.get k o); [done|]. clear Hp.
  induction o as [|[k' v'] o IH]; [done|].
  apply Forall_cons in Hall as [(j & Hj & Hlt) Hall]. simpl in Hj.
  cbn [JsObject.insert_index JsObject.set]. rewrite Hj.
  rewrite (proj2 (N.ltb_lt _ _) Hlt).
  rewrite decide_False by (intros ->; rewrite Hi in Hj; injection Hj; lia).
  by rewrite IH.
Qed.

(** *** The merge of the fetched models *)

Lemma merge_keys_mono (models : list string) (fetched : list ModelInfo)
    (table : JsObject.t string) (k : string) :
  k ∈ JsObject.keys table →
  k ∈ JsObject.keys (foldl (merge_step models) table fetched).
Proof.
  revert table. induction fetched as [|item fetched IH]; intros table Hk;
    cbn [foldl]; [done|].
  apply IH. unfold merge_step.
  destruct (negb _); [by apply assign_keys_mono | done].
Qed.

Lemma merge_keys_new (models : list string) (fetched : list ModelInfo)
    (table : JsObject.t string) (item : ModelInfo) :
  item ∈ fetched →
  Str.replace "models/" "" (name item) ∉ models →
  Str.replace "models/" "" (name item) ≠ "__proto__" →
  Str.replace "models/" "" (name item)
    ∈ JsObject.keys (foldl (merge_step models) table fetched).
Proof.
  intros Hin Hnew Hproto. revert table.
  induction fetched as [|item' fetched IH]; intros table; cbn [foldl].
  - by apply elem_of_nil in Hin.
  - apply elem_of_cons in Hin as [<-|Hin]; [|by apply IH].
    apply merge_keys_mono. unfold merge_step.
    rewrite bool_decide_eq_false_2 by done. simpl. by apply assign_keys_here.
Qed.

Lemma mergeModels_keys_mono (fetched : list ModelInfo)
    (table : JsObject.t string) (k : string) :
  k ∈ JsObject.keys table → k ∈ JsObject.keys (mergeModels fetched table).
Proof.
  intros Hk. unfold mergeModels. destruct (bool_decide _); [|done].
  by apply merge_keys_mono.
Qed.

(** The options are the list built from [GEMINI_MODEL_LIST] when it is not
    empty, and the keys of the table after the merge when it is. *)
Lemma modelOptions_options (GEMINI_MODEL_LIST : option string)
    (fetched : list ModelInfo) (table : JsObject.t string) :
  (userModelList GEMINI_MODEL_LIST (JsObject.keys (mergeModels fetched table))
   = [] →
   options (modelOptions GEMINI_MODEL_LIST fetched table)
   = JsObject.keys (mergeModels fetched table))
  ∧ (userModelList GEMINI_MODEL_LIST
       (JsObject.keys (mergeModels fetched table)) ≠ [] →
     options (modelOptions GEMINI_MODEL_LIST fetched table)
     = userModelList GEMINI_MODEL_LIST
         (JsObject.keys (mergeModels fetched table))).
Proof.
  unfold modelOptions, userModelList; cbn [options]. split.
  - intros ->. by rewrite bool_decide_eq_false_2 by (simpl; lia).
  - intros Hne. rewrite bool_decide_eq_true_2; [done|].
    destruct (modelList _); [done | simpl; lia].
Qed.

(** C8, as amended: an empty answer of the model-list service leaves the
    model store and the flag as they are.  With an empty model store the
    model table is then not written, and the options are the keys of the
    table when the list built from [GEMINI_MODEL_LIST] is empty (as it is
    when the variable is unset or empty) and that list when it is not.  The
    store holds models only after a non-empty answer; such an answer is
    stored and merged into the table, the options follow the same rule over
    the merged table, and each fetched name that is not among the display
    names of the table and is not [__proto__] is a key of the merged
    table. *)
Theorem modelOptions_fallback (GEMINI_MODEL_LIST : option string)
    (st : ModelState) (table : JsObject.t string) :
  store_models st = [] →
  fetched_then [] st = st
  ∧ table_after (options_after_fetch GEMINI_MODEL_LIST [] st table) = table
  ∧ (userModelList GEMINI_MODEL_LIST (JsObject.keys table) = [] →
     options (options_after_fetch GEMINI_MODEL_LIST [] st table)
     = JsObject.keys table)
  ∧ (userModelList GEMINI_MODEL_LIST (JsObject.keys table) ≠ [] →
     options (options_after_fetch GEMINI_MODEL_LIST [] st table)
     = userModelList GEMINI_MODEL_LIST (JsObject.keys table))
  ∧ (userModels GEMINI_MODEL_LIST = [] →
     userModelList GEMINI_MODEL_LIST (JsObject.keys table) = [])
  ∧ (∀ answer, store_models (fetched_then answer st) ≠ [] → 0 < length answer)
  ∧ (∀ answer,
       0 < length answer →
       store_models (fetched_then answer st) = answer
       ∧ cachedModelList (fetched_then answer st) = true
       ∧ table_after (options_after_fetch GEMINI_MODEL_LIST answer st table)
         = mergeModels answer table
       ∧ (userModelList GEMINI_MODEL_LIST
            (JsObject.keys (mergeModels answer table)) = [] →
          options (options_after_fetch GEMINI_MODEL_LIST answer st table)
          = JsObject.keys (mergeModels answer table))
       ∧ (userModelList GEMINI_MODEL_LIST
            (JsObject.keys (mergeModels answer table)) ≠ [] →
          options (options_after_fetch GEMINI_MODEL_LIST answer st table)
          = userModelList GEMINI_MODEL_LIST
              (JsObject.keys (mergeModels answer table)))
       ∧ ∀ item,
           item ∈ answer →
           Str.replace "models/" "" (name item) ∉ JsObject.values table →
           Str.replace "models/" "" (name item) ≠ "__proto__" →
           Str.replace "models/" "" (name item)
             ∈ JsObject.keys (mergeModels answer table)).
Proof.
  intros Hstore.
  assert (fetched_then [] st = st) as Hnil by reflexivity.
  split; [exact Hnil|]. unfold options_after_fetch.
  rewrite Hnil, Hstore.
  split; [reflexivity|].
  split; [apply (modelOptions_options GEMINI_MODEL_LIST [] table)|].
  split; [apply (modelOptions_options GEMINI_MODEL_LIST [] table)|].
  split; [by unfold userModelList; intros ->|].
  split.
  - intros [|item answer] Hne; [by rewrite Hnil in Hne | simpl; lia].
  - intros answer Hlen.
    assert (fetched_then answer st
            = {| cachedModelList := true; store_models := answer |}) as ->.
    { unfold fetched_then. by rewrite bool_decide_eq_true_2. }
    cbn [store_models cachedModelList].
    split; [done|]. split; [done|]. split; [reflexivity|].
    split; [apply (modelOptions_options GEMINI_MODEL_LIST answer table)|].
    split; [apply (modelOptions_options GEMINI_MODEL_LIST answer table)|].
    intros item Hin Hnew Hproto. unfold mergeModels.
    rewrite bool_decide_eq_true_2 by done.
    by apply (merge_keys_new (JsObject.values table)).
Qed.

(** The view opened for the first time, no [GEMINI_MODEL_LIST], an empty
    answer: the options are the keys of the built-in table. *)
Lemma modelOptions_fallback_witness :
  fetched_then [] closedView = closedView
  ∧ options (options_after_fetch None [] closedView Model)
    = JsObject.keys Model.
Proof.
  destruct (modelOptions_fallback None closedView Model eq_refl)
    as (Hsame & _ & Hkeys & _).
  split; [exact Hsame | by apply Hkeys].
Defined.

(** C8, as stated, fails when the deployment names models in
    [GEMINI_MODEL_LIST]: after an empty answer the store is not updated, yet
    the options are the named models and not the keys of the model table. *)
Lemma modelOptions_env_list_counterexample :
  fetched_then [] closedView = closedView
  ∧ options (options_after_fetch (Some "my-model") [] closedView Model)
    = ["my-model"]
  ∧ options (options_after_fetch (Some "my-model") [] closedView Model)
    ≠ JsObject.keys Model.
Proof. split; [reflexivity|]. split; [reflexivity | discriminate]. Qed.

(** ** The form schema *)
Module FormFacts.

Import Zod.

Lemma range_Some (lo hi : Q) (v : value) (n : number) :
  lte hi (gte lo number_) v = Some n → v = Number n ∧ Form.between lo hi n.
Proof.
  unfold lte, gte, number_. destruct v as [| |b|x|s]; simpl; try discriminate.
  destruct x as [| | |q]; simpl; try discriminate.
  destruct (Qle_bool lo q) eqn:Hlo; simpl; [|discriminate].
  destruct (Qle_bool q hi) eqn:Hhi; simpl; [|discriminate].
  intros [= <-]. split; [done|]. exists q.
  split; [done|]. split; by apply Qle_bool_iff.
Qed.

Lemma default_range (lo hi : Q) (d v : value) (n : number) :
  default d (lte hi (gte lo number_)) v = Some n →
  Form.between lo hi n ∧ ∀ x, v = Number x → x = n.
Proof.
  unfold default. destruct v as [| |b|y|s]; intros H;
    apply range_Some in H as [Hv Hb];
    (split; [done|]); intros x [= <-]; congruence.
Qed.

Lemma default_optional_range (lo hi : Q) (d : number) (v : value)
    (o : option number) :
  default (Number d) (optional (lte hi (gte lo number_))) v = Some o →
  ∃ n, o = Some n ∧ Form.between lo hi n ∧ ∀ x, v = Number x → x = n.
Proof.
  unfold default, optional.
  destruct v as [| |b|y|s]; intros H; apply fmap_Some in H as (n & H & ->);
    apply range_Some in H as [Hv Hb]; exists n;
    (split; [done|]); (split; [done|]); intros x [= <-]; congruence.
Qed.

Lemma default_enum (allowed : list String.string) (v : value)
    (s : String.string) :
  default (Text "none") (enum allowed) v = Some s →
  s ∈ allowed ∧ ∀ x, v = Text x → x = s.
Proof.
  unfold default, enum.
  destruct v as [| |b|x|x]; try discriminate;
    (destruct (bool_decide _) eqn:E; [|discriminate]);
    intros [= <-]; apply bool_decide_eq_true in E;
    (split; [done|]); intros y [= <-]; done.
Qed.

(** What each checked field of an accepted object went through. *)
Lemma formSchema_Some (is_url : String.string → bool)
    (input : JsObject.t value) (values : Form.Values) :
  Form.formSchema is_url input = Some values →
  default (Number (Finite 0)) (optional (lte 50 (gte 0 number_)))
          (field "maxHistoryLength" input) = Some (Form.maxHistoryLength values)
  ∧ default (Number (Finite (95 # 100))) (lte 1 (gte 0 number_))
            (field "topP" input) = Some (Form.topP values)
  ∧ default (Number (Finite 40)) (lte 128 (gte 0 number_))
            (field "topK" input) = Some (Form.topK values)
  ∧ default (Number (Finite 1)) (lte 1 (gte 0 number_))
            (field "temperature" input) = Some (Form.temperature values)
  ∧ default (Number (Finite 8192)) (lte 8192 (gte 0 number_))
            (field "maxOutputTokens" input) = Some (Form.maxOutputTokens values)
  ∧ default (Text "none") (enum Form.safety_levels) (field "safety" input)
    = Some (Form.safety values).
Proof.
  unfold Form.formSchema. intros H.
  repeat (apply bind_Some in H as (? & ? & H)).
  injection H as <-. simpl. repeat split; assumption.
Qed.

Lemma accepted_within (is_url : String.string → bool)
    (input : JsObject.t value) (values : Form.Values) :
  Form.formSchema is_url input = Some values →
  Form.within values ∧ ¬ Form.outside input.
Proof.
  intros H. apply formSchema_Some in H as (Hm & Hp & Hk & Ht & Ho & Hs).
  apply default_optional_range in Hm as (n & Hn & Hbm & Hm).
  apply default_range in Hp as [Hbp Hp]. apply default_range in Hk as [Hbk Hk].
  apply default_range in Ht as [Hbt Ht]. apply default_range in Ho as [Hbo Ho].
  apply default_enum in Hs as [Hbs Hs].
  split; [unfold Form.within; eauto 10|].
  intros [(x & Hx & Hout)|[(x & Hx & Hout)|[(x & Hx & Hout)|[(x & Hx & Hout)|
          [(x & Hx & Hout)|(x & Hx & Hout)]]]]]; apply Hout.
  - by rewrite (Hm x Hx).
  - by rewrite (Hp x Hx).
  - by rewrite (Hk x Hx).
  - by rewrite (Ht x Hx).
  - by rewrite (Ho x Hx).
  - by rewrite (Hs x Hx).
Qed.

(** C10: an object the schema accepts yields values within the bounds,
    and these are the values the setting store is updated with; an update
    of the store carries values within the bounds; an object with a number
    outside its range, or with another safety level, is rejected and
    nothing is updated. *)
Theorem formSchema_bounds (is_url : String.string → bool)
    (input : JsObject.t value) :
  (∀ values, Form.formSchema is_url input = Some values →
             Form.within values
             ∧ Form.submit is_url input = [Form.Update values; Form.Close])
  ∧ (∀ values, Form.Update values ∈ Form.submit is_url input → Form.within values)
  ∧ (Form.outside input →
     Form.formSchema is_url input = None ∧ Form.submit is_url input = []).
Proof.
  split; [|split].
  - intros values H. split; [by apply (accepted_within is_url input)|].
    unfold Form.submit. by rewrite H.
  - intros values. unfold Form.submit.
    destruct (Form.formSchema is_url input) as [accepted|] eqn:H.
    + unfold Form.handleSubmit. intros Hin.
      apply elem_of_cons in Hin as [[= ->]|Hin].
      * by apply (accepted_within is_url input).
      * apply list_elem_of_singleton in Hin. discriminate.
    + intros Hin. by apply elem_of_nil in Hin.
  - intros Hout. unfold Form.submit.
    destruct (Form.formSchema is_url input) as [accepted|] eqn:H; [|done].
    exfalso. by apply (accepted_within is_url input accepted).
Qed.

(** An object with the two required fields only is accepted with the
    defaults; the same with [topP] set to 2 is rejected. *)
Example formSchema_defaults :
  Form.formSchema (λ _, true)
    [("assistantIndexUrl", Text "https://example.org/index");
     ("model", Text "gemini-pro")]
  = Some {| Form.password := None;
            Form.assistantIndexUrl := "https://example.org/index";
            Form.lang := None; Form.apiKey := None; Form.apiProxy := None;
            Form.uploadProxy := None; Form.model := "gemini-pro";
            Form.maxHistoryLength := Some (Finite 0);
            Form.topP := Finite (95 # 100); Form.topK := Finite 40;
            Form.temperature := Finite 1; Form.maxOutputTokens := Finite 8192;
            Form.safety := "none"; Form.sttLang := None; Form.ttsLang := None;
            Form.ttsVoice := None; Form.autoStopRecord := false |}.
Proof. reflexivity. Qed.

Example formSchema_rejects_topP :
  Form.submit (λ _, true)
    [("assistantIndexUrl", Text "https://example.org/index");
     ("model", Text "gemini-pro"); ("topP", Number (Finite 2))]
  = [].
Proof. reflexivity. Qed.

End FormFacts.

(** * Further properties *)

(** ** Assignment to an object *)

Lemma set_fresh {V : Type} (k : string) (v : V) (o : JsObject.t V) :
  JsObject.get k o = None → JsObject.set k v o = o ++ [(k, v)].
Proof.
  induction o as [|[k0 v0] o IH]; simpl; [done|].
  destruct (decide (k0 = k)); [done|]. intros H. by rewrite IH.
Qed.

Lemma set_same {V : Type} (k : string) (v : V) (o : JsObject.t V) :
  JsObject.get k o = Some v → JsObject.set k v o = o.
Proof.
  induction o as [|[k0 v0] o IH]; simpl; [done|].
  destruct (decide (k0 = k)) as [->|Hne]; [by intros [= ->]|].
  intros H. by rewrite IH.
Qed.

Lemma set_set {V : Type} (k : string) (v : V) (o : JsObject.t V) :
  JsObject.set k v (JsObject.set k v o) = JsObject.set k v o.
Proof. apply set_same, JsObjectFacts.get_set_eq. Qed.

Lemma elem_of_set {V : Type} (k : string) (v : V) (o : JsObject.t V)
    (x : string * V) :
  x ∈ JsObject.set k v o → x = (k, v) ∨ x ∈ o.
Proof.
  induction o as [|[k0 v0] o IH]; simpl.
  - intros H. apply list_elem_of_singleton in H. by left.
  - destruct (decide (k0 = k)) as [->|Hne]; intros H;
      apply elem_of_cons in H as [->|H].
    + by left.
    + right. by apply list_elem_of_further.
    + right. apply list_elem_of_here.
    + destruct (IH H) as [->|Hin]; [by left|].
      right. by apply list_elem_of_further.
Qed.

(** ** What [search] returns *)

Lemma test_matcher (s : string) (r : RegExp.t) :
  RegExp.matcher (RegExp.test s r).2 = RegExp.matcher r.
Proof.
  unfold RegExp.test. destruct (bool_decide _); [done|].
  by destruct (RegExp.matcher r s (RegExp.lastIndex r)).
Qed.

(** Over one part, and over the parts of the messages of one entry, the
    results stay as they are or get the entry assigned. *)
Lemma search_part_results (id : string) (item : Conversation)
    (st : SearchState) (part : Part) :
  results (search_part id item st part) = results st
  ∨ results (search_part id item st part)
    = JsObject.set id item (results st).
Proof.
  unfold search_part. destruct (text part) as [t|]; [|by left].
  destruct (Str.truthy t); [|by left].
  destruct (RegExp.test t (regex st)) as [[|] r]; simpl; [by right | by left].
Qed.

Lemma search_parts_results (id : string) (item : Conversation)
    (ps : list Part) (st : SearchState) :
  results (foldl (search_part id item) st ps) = results st
  ∨ results (foldl (search_part id item) st ps)
    = JsObject.set id item (results st).
Proof.
  revert st. induction ps as [|part ps IH]; intros st; cbn [foldl]; [by left|].
  destruct (IH (search_part id item st part)) as [->| ->];
    destruct (search_part_results id item st part) as [->| ->]; auto.
  right. apply set_set.
Qed.

Lemma search_messages_results (id : string) (item : Conversation)
    (ms : list Message) (st : SearchState) :
  results (foldl (λ st message, foldl (search_part id item) st (parts message))
                 st ms) = results st
  ∨ results (foldl (λ st message, foldl (search_part id item) st (parts message))
                   st ms)
    = JsObject.set id item (results st).
Proof.
  revert st. induction ms as [|message ms IH]; intros st; cbn [foldl];
    [by left|].
  destruct (IH (foldl (search_part id item) st (parts message))) as [->| ->];
    destruct (search_parts_results id item (parts message) st) as [->| ->];
    auto.
  right. apply set_set.
Qed.

Lemma search_entry_results (st : SearchState) (id : string)
    (item : Conversation) :
  results (search_entry st (id, item)) = results st
  ∨ results (search_entry st (id, item)) = JsObject.set id item (results st).
Proof.
  unfold search_entry.
  destruct (RegExp.test (title item) (regex st)) as [[|] r1].
  - match goal with |- context [foldl ?f ?s (messages item)] =>
      destruct (search_messages_results id item (messages item) s) as [->| ->]
    end; simpl; [by right|]. right. apply set_set.
  - destruct (RegExp.test (systemInstruction item) r1) as [[|] r2].
    + match goal with |- context [foldl ?f ?s (messages item)] =>
        destruct (search_messages_results id item (messages item) s) as [->| ->]
      end; simpl; [by right|]. right. apply set_set.
    + match goal with |- context [foldl ?f ?s (messages item)] =>
        destruct (search_messages_results id item (messages item) s) as [->| ->]
      end; simpl; auto.
Qed.

Lemma search_fold_sublist (rest prefix : JsObject.t Conversation)
    (st : SearchState) :
  NoDup (JsObject.keys (prefix ++ rest)) →
  results st `sublist_of` prefix →
  results (foldl search_entry st rest) `sublist_of` prefix ++ rest.
Proof.
  revert prefix st. induction rest as [|[id item] rest IH];
    intros prefix st Hnd Hsub; cbn [foldl].
  - by rewrite app_nil_r.
  - replace (prefix ++ (id, item) :: rest) with ((prefix ++ [(id, item)]) ++ rest)
      in * by (by rewrite <- app_assoc).
    apply IH; [done|].
    assert (JsObject.get id (results st) = None) as Hfresh.
    { apply JsObjectFacts.get_None_keys. intros Hin.
      unfold JsObject.keys in Hnd, Hin. rewrite !fmap_app in Hnd.
      apply NoDup_app in Hnd as [Hnd _]. apply NoDup_app in Hnd as (_ & Hdis & _).
      apply (Hdis id); [|apply list_elem_of_here].
      eapply elem_of_sublist; [exact Hin|]. by apply fmap_sublist. }
    destruct (search_entry_results st id item) as [->| ->].
    + by apply sublist_inserts_r.
    + rewrite set_fresh by done. by apply sublist_app.
Qed.

(** X1: over a map with distinct keys, the result of [search] is a
    sub-sequence of the map: it holds entries of the map only, each with the
    record it has in the map, in the order of the map. *)
Theorem search_sublist (compile : string → option RegExp.Matcher)
    (keyword : string) (data found : JsObject.t Conversation) :
  NoDup (JsObject.keys data) →
  search compile keyword data = Some found →
  found `sublist_of` data.
Proof.
  intros Hnd. unfold search. destruct (compile (Str.trim keyword)) as [m|];
    simpl; [|discriminate].
  intros [= <-]. apply (search_fold_sublist data []); [done|].
  apply sublist_nil_l.
Qed.

(** A map of two conversations, in the order that loses the second. *)
Lemma search_sublist_witness :
  [("a", saying "hello there")]
    `sublist_of` [("a", saying "hello there"); ("b", titled "Hello World")].
Proof.
  apply (search_sublist RegExp.literal "hello"
           [("a", saying "hello there"); ("b", titled "Hello World")]).
  - by apply (bool_decide_unpack _).
  - reflexivity.
Defined.

Lemma test_hit_matches (m : RegExp.Matcher) (s : string) (r : RegExp.t) :
  finds_from_start m →
  RegExp.matcher r = m →
  (RegExp.test s r).1 = true →
  RegExp.matches m s = true.
Proof.
  intros Hm <-. unfold RegExp.test.
  destruct (bool_decide _); [discriminate|].
  destruct (RegExp.matcher r s (RegExp.lastIndex r)) as [e|] eqn:E;
    [|discriminate].
  intros _. destruct (Hm _ _ _ E) as [e0 E0].
  unfold RegExp.matches, RegExp.test, RegExp.create; simpl.
  by rewrite E0.
Qed.

Lemma sound_assign (m : RegExp.Matcher) (st : SearchState) (r : RegExp.t)
    (id : string) (item : Conversation) :
  sound m st → RegExp.matcher r = m → entry_matches m item →
  sound m {| regex := r; results := JsObject.set id item (results st) |}.
Proof.
  intros [_ Hall] Hr Hitem. split; [done|]. simpl. intros k c Hin.
  apply elem_of_set in Hin as [[= -> ->]|Hin]; [done | by apply (Hall k)].
Qed.

Lemma search_part_sound (m : RegExp.Matcher) (id : string)
    (item : Conversation) (message : Message) (part : Part) (st : SearchState) :
  finds_from_start m →
  message ∈ messages item → part ∈ parts message →
  sound m st → sound m (search_part id item st part).
Proof.
  intros Hm Hmsg Hpart Hst. unfold search_part.
  destruct (text part) as [t|] eqn:Ht; [|done].
  destruct (Str.truthy t) eqn:Htruthy; [|done].
  destruct (RegExp.test t (regex st)) as [hit r] eqn:E.
  assert (RegExp.matcher r = m) as Hr.
  { pose proof (test_matcher t (regex st)) as H. rewrite E in H. simpl in H.
    rewrite H. apply Hst. }
  destruct hit.
  - apply sound_assign; [done..|]. right. right. exists message, part, t.
    repeat split; try done. apply (test_hit_matches m t (regex st) Hm);
      [apply Hst | by rewrite E].
  - split; [done | apply Hst].
Qed.

Lemma search_parts_sound (m : RegExp.Matcher) (id : string)
    (item : Conversation) (message : Message) (ps : list Part)
    (st : SearchState) :
  finds_from_start m →
  message ∈ messages item → (∀ part, part ∈ ps → part ∈ parts message) →
  sound m st → sound m (foldl (search_part id item) st ps).
Proof.
  intros Hm Hmsg. revert st. induction ps as [|part ps IH]; intros st Hps Hst;
    cbn [foldl]; [done|].
  apply IH.
  - intros p Hp. apply Hps. by apply list_elem_of_further.
  - apply (search_part_sound m id item message); [done..| |done].
    apply Hps. apply list_elem_of_here.
Qed.

Lemma search_messages_sound (m : RegExp.Matcher) (id : string)
    (item : Conversation) (ms : list Message) (st : SearchState) :
  finds_from_start m →
  (∀ message, message ∈ ms → message ∈ messages item) →
  sound m st →
  sound m (foldl (λ st message, foldl (search_part id item) st (parts message))
                 st ms).
Proof.
  intros Hm. revert st. induction ms as [|message ms IH]; intros st Hms Hst;
    cbn [foldl]; [done|].
  apply IH.
  - intros x Hx. apply Hms. by apply list_elem_of_further.
  - apply (search_parts_sound m id item message); [done| |done|done].
    apply Hms. apply list_elem_of_here.
Qed.

Lemma search_entry_sound (m : RegExp.Matcher) (st : SearchState)
    (id : string) (item : Conversation) :
  finds_from_start m → sound m st → sound m (search_entry st (id, item)).
Proof.
  intros Hm Hst. unfold search_entry.
  destruct (RegExp.test (title item) (regex st)) as [hit r1] eqn:E1.
  assert (RegExp.matcher r1 = m) as Hr1.
  { pose proof (test_matcher (title item) (regex st)) as H. rewrite E1 in H.
    simpl in H. rewrite H. apply Hst. }
  destruct hit.
  - apply search_messages_sound; [done..|].
    apply sound_assign; [done..|]. left.
    apply (test_hit_matches m _ (regex st) Hm); [apply Hst | by rewrite E1].
  - destruct (RegExp.test (systemInstruction item) r1) as [hit r2] eqn:E2.
    assert (RegExp.matcher r2 = m) as Hr2.
    { pose proof (test_matcher (systemInstruction item) r1) as H.
      rewrite E2 in H. simpl in H. by rewrite H. }
    apply search_messages_sound; [done..|].
    destruct hit.
    + apply sound_assign; [done..|]. right. left.
      apply (test_hit_matches m _ r1 Hm); [done | by rewrite E2].
    + split; [done | apply Hst].
Qed.

Lemma search_results_sound (compile : string → option RegExp.Matcher)
    (keyword : string) (m : RegExp.Matcher)
    (data found : JsObject.t Conversation) (id : string) (c : Conversation) :
  finds_from_start m →
  compile (Str.trim keyword) = Some m →
  search compile keyword data = Some found →
  (id, c) ∈ found →
  entry_matches m c.
Proof.
  intros Hm Hc. unfold search. rewrite Hc; simpl. intros [= <-].
  assert (∀ (es : JsObject.t Conversation) st,
            sound m st → sound m (foldl search_entry st es)) as Hfold.
  { induction es as [|[k item] es IH]; intros st Hst; cbn [foldl]; [done|].
    apply IH. by apply search_entry_sound. }
  assert (sound m {| regex := RegExp.create m; results := JsObject.empty |})
    as Hinit.
  { split; [done|]. intros k x Hin. by apply elem_of_nil in Hin. }
  apply (proj2 (Hfold data _ Hinit)).
Qed.

(** Every entry of the result is an entry of the map. *)
Lemma search_results_from_data (compile : string → option RegExp.Matcher)
    (keyword : string) (data found : JsObject.t Conversation)
    (x : string * Conversation) :
  search compile keyword data = Some found →
  x ∈ found → x ∈ data.
Proof.
  unfold search. destruct (compile (Str.trim keyword)) as [m|]; simpl;
    [|discriminate].
  intros [= <-].
  assert (∀ (es : JsObject.t Conversation) st,
            x ∈ results (foldl search_entry st es) →
            x ∈ results st ∨ x ∈ es) as Hfold.
  { induction es as [|[k item] es IH]; intros st Hin; cbn [foldl] in Hin;
      [by left|].
    destruct (IH _ Hin) as [Hst|Hes]; [|right; by apply list_elem_of_further].
    destruct (search_entry_results st k item) as [E|E]; rewrite E in Hst;
      [by left|].
    apply elem_of_set in Hst as [->|Hst]; [right; apply list_elem_of_here|].
    by left. }
  intros Hin. destruct (Hfold data _ Hin) as [H|H]; [|done].
  by apply elem_of_nil in H.
Qed.

(** X2: [search] returns matching entries only.  With an engine that
    finds from the start what it finds further on, every entry of the
    result has a title, a system instruction or a non-empty part text that
    the keyword matches. *)
Theorem search_sound (compile : string → option RegExp.Matcher)
    (keyword : string) (m : RegExp.Matcher)
    (data found : JsObject.t Conversation) (id : string) (c : Conversation) :
  finds_from_start m →
  compile (Str.trim keyword) = Some m →
  search compile keyword data = Some found →
  (id, c) ∈ found →
  entry_matches m c.
Proof. apply search_results_sound. Qed.

(** The engine for plain patterns finds from the start what it finds
    further on. *)
Lemma exec_literal_from_start (p s : string) (i k e : nat) :
  RegExp.exec_literal p s i k = Some e →
  is_Some (RegExp.exec_literal p s i 0).
Proof.
  revert i. induction s as [|c s IH]; intros i; cbn [RegExp.exec_literal].
  - rewrite (bool_decide_eq_true_2 (0 ≤ i)) by lia.
    destruct (bool_decide (k ≤ i)); simpl; [|discriminate].
    destruct (RegExp.prefix_ci p ""); [by eexists | discriminate].
  - rewrite (bool_decide_eq_true_2 (0 ≤ i)) by lia. simpl.
    destruct (RegExp.prefix_ci p (String c s)); [by eexists|].
    rewrite andb_false_r. apply IH.
Qed.

Lemma literal_finds_from_start (source : string) (m : RegExp.Matcher) :
  RegExp.literal source = Some m → finds_from_start m.
Proof.
  unfold RegExp.literal. destruct (forallb _ _); [|discriminate].
  intros [= <-] s k e. apply exec_literal_from_start.
Qed.

(** The entry that [hello] finds in a map of two. *)
Lemma search_sound_witness :
  entry_matches (λ s start, RegExp.exec_literal "hello" s 0 start)
                (saying "hello there").
Proof.
  apply (search_sound RegExp.literal "hello"
           (λ s start, RegExp.exec_literal "hello" s 0 start)
           [("a", saying "hello there"); ("b", titled "Hello World")]
           [("a", saying "hello there")] "a").
  - by apply (literal_finds_from_start "hello").
  - reflexivity.
  - reflexivity.
  - apply list_elem_of_here.
Defined.

(** The empty pattern matches every subject at index 0 and leaves the
    expression as it is. *)
Lemma test_empty_pattern (s : string) :
  RegExp.test s (RegExp.create (λ s start, RegExp.exec_literal "" s 0 start))
  = (true, RegExp.create (λ s start, RegExp.exec_literal "" s 0 start)).
Proof. unfold RegExp.test, RegExp.create; simpl. by destruct s. Qed.

Lemma search_parts_empty_pattern (id : string) (item : Conversation)
    (ps : list Part) (found : JsObject.t Conversation) :
  JsObject.get id found = Some item →
  foldl (search_part id item)
        {| regex := RegExp.create (λ s start, RegExp.exec_literal "" s 0 start);
           results := found |} ps
  = {| regex := RegExp.create (λ s start, RegExp.exec_literal "" s 0 start);
       results := found |}.
Proof.
  intros Hget. induction ps as [|part ps IH]; cbn [foldl]; [done|].
  unfold search_part at 2; simpl.
  destruct (text part) as [t|]; [|done].
  destruct (Str.truthy t); [|done].
  rewrite test_empty_pattern. by rewrite set_same.
Qed.

Lemma search_entry_empty_pattern (id : string) (item : Conversation)
    (found : JsObject.t Conversation) :
  search_entry
    {| regex := RegExp.create (λ s start, RegExp.exec_literal "" s 0 start);
       results := found |} (id, item)
  = {| regex := RegExp.create (λ s start, RegExp.exec_literal "" s 0 start);
       results := JsObject.set id item found |}.
Proof.
  unfold search_entry; simpl. rewrite test_empty_pattern.
  induction (messages item) as [|message ms IH]; cbn [foldl]; [done|].
  rewrite search_parts_empty_pattern; [done|].
  apply JsObjectFacts.get_set_eq.
Qed.

Lemma search_fold_empty_pattern (data found : JsObject.t Conversation) :
  NoDup (JsObject.keys (found ++ data)) →
  results (foldl search_entry
             {| regex := RegExp.create
                           (λ s start, RegExp.exec_literal "" s 0 start);
                results := found |} data)
  = found ++ data.
Proof.
  revert found. induction data as [|[id item] data IH]; intros found Hnd;
    cbn [foldl].
  - by rewrite app_nil_r.
  - rewrite search_entry_empty_pattern.
    replace (found ++ (id, item) :: data) with ((found ++ [(id, item)]) ++ data)
      in * by (by rewrite <- app_assoc).
    rewrite set_fresh.
    + by apply IH.
    + apply JsObjectFacts.get_None_keys. intros Hin.
      unfold JsObject.keys in Hnd, Hin. rewrite !fmap_app in Hnd.
      apply NoDup_app in Hnd as [Hnd _]. apply NoDup_app in Hnd as (_ & Hdis & _).
      apply (Hdis id); [done | apply list_elem_of_here].
Qed.

(** X3: a keyword that is empty once trimmed selects everything: over a
    map with distinct keys [search] returns the map itself, whatever the
    titles, instructions and messages are. *)
Theorem search_blank_keyword (keyword : string)
    (data : JsObject.t Conversation) :
  Str.trim keyword = "" →
  NoDup (JsObject.keys data) →
  search RegExp.literal keyword data = Some data.
Proof.
  intros Hk Hnd. unfold search. rewrite Hk. simpl.
  f_equal. apply (search_fold_empty_pattern data []). exact Hnd.
Qed.

(** Three spaces as keyword. *)
Lemma search_blank_keyword_witness :
  search RegExp.literal "   "
         [("a", saying "hello there"); ("b", titled "Hello World")]
  = Some [("a", saying "hello there"); ("b", titled "Hello World")].
Proof.
  apply search_blank_keyword; [reflexivity|].
  by apply (bool_decide_unpack _).
Defined.

(** ** Switching back and forth *)

Lemma is_Some_get_set {V : Type} (k k' : string) (v : V) (o : JsObject.t V) :
  is_Some (JsObject.get k' o) → is_Some (JsObject.get k' (JsObject.set k v o)).
Proof.
  intros H. destruct (decide (k = k')) as [->|Hne].
  - rewrite JsObjectFacts.get_set_eq. by eexists.
  - by rewrite JsObjectFacts.get_set_ne.
Qed.

Lemma NoDup_keys_set {V : Type} (k : string) (v : V) (o : JsObject.t V) :
  NoDup (JsObject.keys o) → NoDup (JsObject.keys (JsObject.set k v o)).
Proof.
  intros Hnd. destruct (JsObject.get k o) as [v0|] eqn:E.
  - rewrite JsObjectFacts.keys_set_in; [done | by eexists].
  - rewrite JsObjectFacts.keys_set_fresh by done.
    apply NoDup_app. split; [done|]. split; [|apply NoDup_singleton].
    intros x Hx Hk. apply list_elem_of_singleton in Hk as ->.
    by apply JsObjectFacts.get_None_keys in E.
Qed.

(** X4: going to another conversation and back loses nothing.  From any
    state, selecting a present [target] other than the current id and then
    the former current id succeeds twice and ends with the live fields and
    the current id as they were, the snapshot of the live fields under the
    current id, and every other list entry as it was. *)
Theorem handleSelect_round_trip (w : World) (target : string)
    (c : Conversation) :
  target ≠ currentId (conversationStore w) →
  JsObject.get target (conversationList (conversationStore w)) = Some c →
  ∃ w1 w2,
    handleSelect target w = Some (tt, w1)
    ∧ handleSelect (currentId (conversationStore w)) w1 = Some (tt, w2)
    ∧ messageStore w2 = messageStore w
    ∧ currentId (conversationStore w2) = currentId (conversationStore w)
    ∧ pinned (conversationStore w2) = pinned (conversationStore w)
    ∧ JsObject.get (currentId (conversationStore w))
                   (conversationList (conversationStore w2))
      = Some (Store.snapshot (messageStore w))
    ∧ ∀ k, k ≠ currentId (conversationStore w) →
           JsObject.get k (conversationList (conversationStore w2))
           = JsObject.get k (conversationList (conversationStore w)).
Proof.
  intros Hne Hc. rewrite handleSelect_unfold; simpl.
  rewrite JsObjectFacts.get_set_ne, Hc by done.
  eexists _, _. split; [reflexivity|].
  rewrite handleSelect_unfold; simpl. rewrite snapshot_load.
  rewrite JsObjectFacts.get_set_ne by done.
  rewrite JsObjectFacts.get_set_eq.
  split; [reflexivity|]. simpl. rewrite load_snapshot.
  repeat split.
  - rewrite JsObjectFacts.get_set_ne by done. apply JsObjectFacts.get_set_eq.
  - intros k Hk. destruct (decide (target = k)) as [<-|Hk'].
    + rewrite JsObjectFacts.get_set_eq.
      by rewrite <- Hc.
    + rewrite JsObjectFacts.get_set_ne by done.
      by rewrite JsObjectFacts.get_set_ne.
Qed.

(** From the second of two created conversations to the first and back. *)
Lemma handleSelect_round_trip_witness :
  ∃ w1 w2,
    handleSelect "x00000000001" secondOpen = Some (tt, w1)
    ∧ handleSelect "y00000000002" w1 = Some (tt, w2)
    ∧ messageStore w2 = messageStore secondOpen.
Proof.
  destruct (handleSelect_round_trip secondOpen "x00000000001"
              (titled "Groceries")) as (w1 & w2 & H1 & H2 & Hlive & _).
  - discriminate.
  - reflexivity.
  - exists w1, w2. split; [exact H1|]. split; [exact H2 | exact Hlive].
Defined.

(** X5: selecting the same conversation again changes nothing: when
    [handleSelect id] succeeds, a second [handleSelect id] succeeds and
    leaves the state it finds. *)
Theorem handleSelect_twice (w w1 : World) (id : string) :
  handleSelect id w = Some (tt, w1) →
  handleSelect id w1 = Some (tt, w1).
Proof.
  rewrite handleSelect_unfold; simpl.
  destruct (JsObject.get id _) as [c|] eqn:E; [|discriminate].
  intros [= <-]. rewrite handleSelect_unfold; simpl.
  rewrite snapshot_load. rewrite (set_same id c) by done.
  by rewrite E.
Qed.

(** The first of two created conversations, selected twice. *)
Lemma handleSelect_twice_witness :
  handleSelect "x00000000001"
    (default initialWorld (run (handleSelect "x00000000001") secondOpen))
  = Some (tt, default initialWorld (run (handleSelect "x00000000001") secondOpen)).
Proof. apply (handleSelect_twice secondOpen). reflexivity. Defined.

(** X6: in every state reached from the start by selecting, creating and
    renaming, the conversation list has distinct keys and holds an entry
    for the current id and one for ["default"]. *)
Theorem reachable_current_present (w : World) :
  reachable w →
  NoDup (JsObject.keys (conversationList (conversationStore w)))
  ∧ is_Some (JsObject.get (currentId (conversationStore w))
                          (conversationList (conversationStore w)))
  ∧ is_Some (JsObject.get "default" (conversationList (conversationStore w))).
Proof.
  induction 1 as [|a w w' Hw (Hnd & Hcur & Hdef) Hstep].
  - split; [by apply (bool_decide_unpack _)|]. split; by eexists.
  - unfold run in Hstep. destruct a as [id|id|text]; simpl in Hstep.
    + rewrite handleSelect_unfold in Hstep; simpl in Hstep.
      destruct (JsObject.get id _) as [c|] eqn:E; [|discriminate].
      injection Hstep as <-. simpl. split; [by apply NoDup_keys_set|].
      split; [by eexists | by apply is_Some_get_set].
    + injection Hstep as <-. simpl.
      split; [by do 2 apply NoDup_keys_set|]. split.
      * rewrite JsObjectFacts.get_set_eq. by eexists.
      * by do 2 apply is_Some_get_set.
    + injection Hstep as <-. by simpl.
Qed.

(** The state with two created conversations, the second open. *)
Lemma reachable_current_present_witness :
  is_Some (JsObject.get (currentId (conversationStore secondOpen))
                        (conversationList (conversationStore secondOpen))).
Proof.
  apply (reachable_current_present secondOpen).
  apply (reachable_perform
           [New "x00000000001"; New "y00000000002"; Select "x00000000001";
            EditTitle "Groceries"; Select "y00000000002"] initialWorld);
    [apply reachable_init | reflexivity].
Defined.

(** ** Creating a conversation *)

(** X7: creating a conversation and going back loses nothing.  After
    [newConversation id], for an [id] other than the current one, selecting
    the former current id succeeds and ends with the live fields and the
    current id as they were, while the new id keeps the empty conversation. *)
Theorem newConversation_and_back (w : World) (id : string) :
  id ≠ currentId (conversationStore w) →
  ∃ w1 w2,
    newConversation id w = Some (tt, w1)
    ∧ handleSelect (currentId (conversationStore w)) w1 = Some (tt, w2)
    ∧ messageStore w2 = messageStore w
    ∧ currentId (conversationStore w2) = currentId (conversationStore w)
    ∧ JsObject.get id (conversationList (conversationStore w2))
      = Some emptyConversation
    ∧ JsObject.get (currentId (conversationStore w))
                   (conversationList (conversationStore w2))
      = Some (Store.snapshot (messageStore w))
    ∧ ∀ k, k ≠ id → k ≠ currentId (conversationStore w) →
           JsObject.get k (conversationList (conversationStore w2))
           = JsObject.get k (conversationList (conversationStore w)).
Proof.
  intros Hne. unfold newConversation, mbind, Action_bind; simpl.
  eexists _, _. split; [reflexivity|].
  rewrite handleSelect_unfold; simpl.
  rewrite (set_same id emptyConversation) by apply JsObjectFacts.get_set_eq.
  rewrite JsObjectFacts.get_set_ne by done. rewrite JsObjectFacts.get_set_eq.
  split; [reflexivity|]. simpl. rewrite load_snapshot. repeat split.
  - apply JsObjectFacts.get_set_eq.
  - rewrite JsObjectFacts.get_set_ne by done. apply JsObjectFacts.get_set_eq.
  - intros k Hk Hk'. by rewrite !JsObjectFacts.get_set_ne.
Qed.

(** A third conversation created while the second is open. *)
Lemma newConversation_and_back_witness :
  ∃ w1 w2,
    newConversation "z00000000003" secondOpen = Some (tt, w1)
    ∧ handleSelect "y00000000002" w1 = Some (tt, w2)
    ∧ messageStore w2 = messageStore secondOpen.
Proof.
  destruct (newConversation_and_back secondOpen "z00000000003")
    as (w1 & w2 & H1 & H2 & Hlive & _).
  - discriminate.
  - exists w1, w2. split; [exact H1|]. split; [exact H2 | exact Hlive].
Defined.

(** The ids of the two derived lists are the keys of the shown map,
    filtered. *)
Lemma listed_ids (pinned : list string) (es : JsObject.t Conversation) :
  item_id <$> (make_item <$> filter (listed pinned) es)
  = filter (λ k, k ≠ "default" ∧ k ∉ pinned) (JsObject.keys es).
Proof.
  unfold JsObject.keys. induction es as [|[k c] es IH]; [done|].
  cbn [fmap list_fmap fst]. rewrite !filter_cons. unfold listed at 1; cbn [fst].
  destruct (decide _); cbn [fmap list_fmap]; [f_equal|]; exact IH.
Qed.

Lemma pinned_ids (pinned : list string) (es : JsObject.t Conversation) :
  item_id <$> (make_item <$> filter (listed_pinned pinned) es)
  = filter (λ k, k ≠ "default" ∧ k ∈ pinned) (JsObject.keys es).
Proof.
  unfold JsObject.keys. induction es as [|[k c] es IH]; [done|].
  cbn [fmap list_fmap fst]. rewrite !filter_cons.
  unfold listed_pinned at 1; cbn [fst].
  destruct (decide _); cbn [fmap list_fmap]; [f_equal|]; exact IH.
Qed.

(** X8: a new conversation shows up last in the ordinary list.  When the
    list holds the current id and the new id is fresh, is not ["default"]
    and is not pinned, then after [newConversation id] the ordinary list of
    the sidebar (no search active) has the ids it had, followed by [id], and
    the pinned list has the ids it had. *)
Theorem newConversation_listed_last (w w' : World) (id : string) :
  is_Some (JsObject.get (currentId (conversationStore w))
                        (conversationList (conversationStore w))) →
  JsObject.get id (conversationList (conversationStore w)) = None →
  id ≠ "default" →
  id ∉ pinned (conversationStore w) →
  newConversation id w = Some (tt, w') →
  item_id <$> (lists (conversationList (conversationStore w')) None
                     (pinned (conversationStore w'))).1
  = (item_id <$> (lists (conversationList (conversationStore w)) None
                        (pinned (conversationStore w))).1) ++ [id]
  ∧ item_id <$> (lists (conversationList (conversationStore w')) None
                       (pinned (conversationStore w'))).2
    = item_id <$> (lists (conversationList (conversationStore w)) None
                         (pinned (conversationStore w))).2.
Proof.
  intros Hcur Hfresh Hdef Hpin.
  unfold newConversation, mbind, Action_bind; simpl. intros [= <-]. simpl.
  assert (id ≠ currentId (conversationStore w)) as Hne.
  { intros ->. rewrite Hfresh in Hcur. by destruct Hcur. }
  rewrite !lists_filter; simpl. rewrite !listed_ids, !pinned_ids.
  rewrite set_fresh by (by rewrite JsObjectFacts.get_set_ne).
  unfold JsObject.keys. rewrite !fmap_app, !filter_app. simpl.
  fold (JsObject.keys (JsObject.set (currentId (conversationStore w))
                         (Store.snapshot (messageStore w))
                         (conversationList (conversationStore w)))).
  rewrite JsObjectFacts.keys_set_in by done.
  rewrite !filter_cons, !filter_nil.
  rewrite decide_True by done.
  rewrite decide_False by (intros [_ H]; by apply Hpin).
  by rewrite app_nil_r.
Qed.

(** A third conversation created while the second is open. *)
Lemma newConversation_listed_last_witness :
  item_id <$> (lists (conversationList (conversationStore
                 (default initialWorld
                    (run (newConversation "z00000000003") secondOpen))))
                 None []).1
  = ["x00000000001"; "y00000000002"; "z00000000003"].
Proof.
  pose proof (newConversation_listed_last secondOpen
                (default initialWorld
                   (run (newConversation "z00000000003") secondOpen))
                "z00000000003") as H.
  destruct H as [H _].
  - by eexists.
  - reflexivity.
  - discriminate.
  - apply not_elem_of_nil.
  - reflexivity.
  - exact H.
Defined.

(** ** Streams of title chunks *)

Lemma set_overwrite {V : Type} (k : string) (v1 v2 : V) (o : JsObject.t V) :
  JsObject.set k v2 (JsObject.set k v1 o) = JsObject.set k v2 o.
Proof.
  induction o as [|[k0 v0] o IH]; simpl.
  - by rewrite decide_True.
  - destruct (decide (k0 = k)) as [->|Hne]; simpl.
    + by rewrite decide_True.
    + rewrite decide_False by done. by rewrite IH.
Qed.

(** The loop over chunks only: the content accumulates and the list entry
    of the id holds the captured conversation under the content so far. *)
Lemma summary_loop_chunks (decode : list Byte.byte → string)
    (values : list (list Byte.byte)) (t : SummaryTask) (w : World) :
  summary_loop decode t (Chunk <$> values) w
  = Some ({| task_id := task_id t; task_currentId := task_currentId t;
             task_conversation := task_conversation t;
             task_content := accumulated decode (task_content t) values |},
          match values with
          | [] => w
          | _ :: _ =>
              {| conversationStore :=
                   {| conversationList :=
                        JsObject.set (task_id t)
                          (with_title (task_conversation t)
                             (accumulated decode (task_content t) values))
                          (conversationList (conversationStore w));
                      pinned := pinned (conversationStore w);
                      currentId := currentId (conversationStore w) |};
                 messageStore := messageStore w |}
          end).
Proof.
  revert t w. induction values as [|value values IH]; intros t w.
  - by destruct t.
  - cbn [fmap list_fmap summary_loop]. unfold mbind at 1, Action_bind at 1.
    unfold summary_chunk at 1, mbind at 1, Action_bind at 1; simpl.
    rewrite IH; simpl. destruct values as [|value' values]; [done|].
    simpl. by rewrite set_overwrite.
Qed.

(** X9: a stream that no user action interrupts.  For an [id] present in
    the list with entry [c], after the chunks [values] and the end of the
    stream the current id and the pinned ids are as before; the list is
    untouched when there was no chunk and otherwise holds, under [id], [c]
    with the concatenation of the decoded chunks as title; when [id] was
    current at the call the live title is that concatenation (the empty
    string when there was no chunk) and the other live fields are as
    before; otherwise the live fields are as before. *)
Theorem summary_uninterrupted (encodeToken : string → string)
    (decode : list Byte.byte → string) (s : SettingStore) (w : World)
    (id : string) (c : Conversation) (values : list (list Byte.byte)) :
  JsObject.get id (conversationList (conversationStore w)) = Some c →
  ∃ w',
    run (handleSummaryTitle encodeToken decode s id (Chunk <$> values)) w
      = Some w'
    ∧ currentId (conversationStore w') = currentId (conversationStore w)
    ∧ pinned (conversationStore w') = pinned (conversationStore w)
    ∧ conversationList (conversationStore w')
      = match values with
        | [] => conversationList (conversationStore w)
        | _ :: _ =>
            JsObject.set id (with_title c (accumulated decode "" values))
                         (conversationList (conversationStore w))
        end
    ∧ (id = currentId (conversationStore w) →
       Store.snapshot (messageStore w')
       = with_title (Store.snapshot (messageStore w))
                    (accumulated decode "" values))
    ∧ (id ≠ currentId (conversationStore w) →
       messageStore w' = messageStore w).
Proof.
  intros Hc. unfold run, handleSummaryTitle.
  unfold mbind at 1, Action_bind at 1.
  unfold summary_begin, mbind, Action_bind; simpl. rewrite Hc; simpl.
  rewrite summary_loop_chunks; simpl. unfold summary_end; simpl.
  destruct (decide (id = currentId (conversationStore w))) as [E|E]; simpl.
  - eexists; split; [reflexivity|]. destruct values; simpl; by repeat split.
  - eexists; split; [reflexivity|]. destruct values; simpl; by repeat split.
Qed.

(** Two chunks for the open conversation. *)
Lemma summary_uninterrupted_witness :
  ∃ w',
    run (handleSummaryTitle token string_of_list_byte someSetting
           "y00000000002" (Chunk <$> [bytes "Week"; bytes "end"])) secondOpen
      = Some w'
    ∧ conversationList (conversationStore w')
      = JsObject.set "y00000000002" (with_title emptyConversation "Weekend")
          (conversationList (conversationStore secondOpen)).
Proof.
  destruct (summary_uninterrupted token string_of_list_byte someSetting
              secondOpen "y00000000002" emptyConversation
              [bytes "Week"; bytes "end"] eq_refl)
    as (w' & Hrun & _ & _ & Hlist & _).
  exists w'. split; [exact Hrun | exact Hlist].
Defined.

(** Sequencing, when the first handler succeeds. *)
Lemma action_bind_Some {A B : Type} (m : Action A) (f : A → Action B)
    (w : World) (a : A) (w1 : World) :
  m w = Some (a, w1) → (m ≫= f) w = f a w1.
Proof. intros H. unfold mbind, Action_bind. by rewrite H. Qed.

(** The part of the handler that runs before the first suspension. *)
Lemma summary_begin_Some (encodeToken : string → string) (s : SettingStore)
    (w : World) (id : string) (c : Conversation) :
  JsObject.get id (conversationList (conversationStore w)) = Some c →
  summary_begin encodeToken s id w
  = Some ((summaryConfig encodeToken s id (currentId (conversationStore w))
             (messageStore w) c,
           {| task_id := id;
              task_currentId := currentId (conversationStore w);
              task_conversation := c; task_content := "" |}), w).
Proof.
  intros Hc. unfold summary_begin, mbind, Action_bind; simpl. by rewrite Hc.
Qed.

(** X10: a chunk that arrives after the user left the summarized
    conversation undoes the backup.  When [id] is current with list entry
    [c], and the user selects a present [other] before the chunk [value]
    arrives and the stream ends, the entry of [id] is [c] with the decoded
    chunk as title: it has the messages of [c], whatever the live messages
    were that the switch had stored under [id]; [other] is current, and its
    live title is the decoded chunk. *)
Theorem summary_chunk_after_switch (encodeToken : string → string)
    (decode : list Byte.byte → string) (s : SettingStore) (w : World)
    (id other : string) (c c' : Conversation) (value : list Byte.byte) :
  currentId (conversationStore w) = id →
  JsObject.get id (conversationList (conversationStore w)) = Some c →
  other ≠ id →
  JsObject.get other (conversationList (conversationStore w)) = Some c' →
  ∃ w',
    run (handleSummaryTitle encodeToken decode s id
           [User (Select other); Chunk value]) w = Some w'
    ∧ JsObject.get id (conversationList (conversationStore w'))
      = Some (with_title c (decode value))
    ∧ messages <$> JsObject.get id (conversationList (conversationStore w'))
      = Some (messages c)
    ∧ currentId (conversationStore w') = other
    ∧ Store.snapshot (messageStore w') = with_title c' (decode value).
Proof.
  intros Hcur Hc Hne Hc'.
  assert (user (Select other) w
          = Some (tt, {| conversationStore :=
                           {| conversationList :=
                                JsObject.set id (Store.snapshot (messageStore w))
                                  (conversationList (conversationStore w));
                              pinned := pinned (conversationStore w);
                              currentId := other |};
                         messageStore := Store.load c' |})) as Hsel.
  { cbn [user]. rewrite handleSelect_unfold; simpl. rewrite Hcur.
    rewrite JsObjectFacts.get_set_ne by done. by rewrite Hc'. }
  unfold run, handleSummaryTitle.
  rewrite (action_bind_Some _ _ w _ w
             (summary_begin_Some encodeToken s w id c Hc)).
  cbn [summary_loop].
  rewrite (action_bind_Some _ _ w _ _
             (action_bind_Some _ _ w _ _ Hsel)).
  unfold summary_chunk, summary_end, mbind, Action_bind; simpl.
  rewrite Hcur, decide_True by done. simpl.
  eexists; split; [reflexivity|]. simpl.
  rewrite set_overwrite, JsObjectFacts.get_set_eq. by repeat split.
Qed.

(** The second conversation is open and summarized; the user leaves for
    the first one before the chunk. *)
Lemma summary_chunk_after_switch_witness :
  ∃ w',
    run (handleSummaryTitle token string_of_list_byte someSetting
           "y00000000002" [User (Select "x00000000001"); Chunk (bytes "Trip")])
        secondOpen = Some w'
    ∧ JsObject.get "y00000000002" (conversationList (conversationStore w'))
      = Some (with_title emptyConversation "Trip").
Proof.
  destruct (summary_chunk_after_switch token string_of_list_byte someSetting
              secondOpen "y00000000002" "x00000000001" emptyConversation
              (titled "Groceries") (bytes "Trip") eq_refl eq_refl)
    as (w' & Hrun & Hentry & _).
  - discriminate.
  - reflexivity.
  - exists w'. split; [exact Hrun | exact Hentry].
Defined.

(** ** The rendered sidebar *)

(** X11: the two derived lists keep the order and the records of the map
    that is shown: each is a sub-sequence of the entries of the map, taken
    as items. *)
Theorem lists_in_map_order (conversationList : JsObject.t Conversation)
    (conversations : option (JsObject.t Conversation)) (pinned : list string) :
  (lists conversationList conversations pinned).1
    `sublist_of` make_item <$> sources conversationList conversations
  ∧ (lists conversationList conversations pinned).2
      `sublist_of` make_item <$> sources conversationList conversations.
Proof.
  rewrite lists_filter; simpl. split; apply fmap_sublist, sublist_filter.
Qed.

(** The ids of the rendered items: ["default"], the pinned keys, the other
    keys. *)
Lemma AppSidebar_ids (t : string → string)
    (conversationList : JsObject.t Conversation)
    (conversations : option (JsObject.t Conversation))
    (pinned : list string) (currentId : string) :
  props_id <$> AppSidebar_items t conversationList conversations pinned currentId
  = "default"
    :: filter (λ k, k ≠ "default" ∧ k ∈ pinned)
              (JsObject.keys (sources conversationList conversations))
    ++ filter (λ k, k ≠ "default" ∧ k ∉ pinned)
              (JsObject.keys (sources conversationList conversations)).
Proof.
  unfold AppSidebar_items. rewrite lists_filter; simpl. f_equal.
  rewrite fmap_app, <- !list_fmap_compose.
  rewrite <- listed_ids, <- pinned_ids. by rewrite <- !list_fmap_compose.
Qed.

Lemma AppSidebar_active (t : string → string)
    (conversationList : JsObject.t Conversation)
    (conversations : option (JsObject.t Conversation))
    (pinned : list string) (currentId : string) (p : Props) :
  p ∈ AppSidebar_items t conversationList conversations pinned currentId →
  props_isActive p = bool_decide (currentId = props_id p).
Proof.
  unfold AppSidebar_items. intros Hin.
  apply elem_of_cons in Hin as [->|Hin]; [done|].
  apply elem_of_app in Hin as [Hin|Hin];
    apply list_elem_of_fmap in Hin as (item & -> & _); done.
Qed.

(** X12: the highlighted item.  An item of the sidebar is active exactly
    when its id is the current id; when the shown map has distinct keys no
    two items have the same id, so at most one item is active; and an item
    has the current id exactly when the current id is ["default"] or a key
    of the shown map (none is highlighted while a search hides the open
    conversation). *)
Theorem AppSidebar_one_active (t : string → string)
    (conversationList : JsObject.t Conversation)
    (conversations : option (JsObject.t Conversation))
    (pinned : list string) (currentId : string) :
  NoDup (JsObject.keys (sources conversationList conversations)) →
  let items :=
    AppSidebar_items t conversationList conversations pinned currentId in
  (∀ p, p ∈ items → (props_isActive p = true ↔ props_id p = currentId))
  ∧ NoDup (props_id <$> items)
  ∧ (currentId ∈ props_id <$> items
     ↔ currentId = "default"
       ∨ currentId ∈ JsObject.keys (sources conversationList conversations)).
Proof.
  intros Hnd items. subst items. split; [|split].
  - intros p Hp. rewrite (AppSidebar_active _ _ _ _ _ _ Hp).
    rewrite bool_decide_eq_true. split; congruence.
  - rewrite AppSidebar_ids. apply NoDup_cons. split.
    + rewrite elem_of_app, !list_elem_of_filter. intros [[[H _] _]|[[H _] _]]; done.
    + apply NoDup_app. split; [by apply NoDup_filter|].
      split; [|by apply NoDup_filter].
      intros k. rewrite !list_elem_of_filter. intros [[_ Hin] _] [[_ Hout] _].
      by apply Hout.
  - rewrite AppSidebar_ids, elem_of_cons, elem_of_app, !list_elem_of_filter.
    split.
    + intros [->|[[_ H]|[_ H]]]; auto.
    + intros [->|Hk]; [by left|].
      destruct (decide (currentId = "default")) as [->|Hd]; [by left|].
      right. destruct (decide (currentId ∈ pinned)); [left | right]; done.
Qed.

(** The sidebar of the state with two created conversations. *)
Lemma AppSidebar_one_active_witness :
  NoDup (props_id <$>
           AppSidebar_items (λ key, key)
             (conversationList (conversationStore secondOpen)) None []
             "y00000000002").
Proof.
  destruct (AppSidebar_one_active (λ key, key)
              (conversationList (conversationStore secondOpen)) None []
              "y00000000002") as (_ & H & _).
  - by apply (bool_decide_unpack _).
  - exact H.
Defined.

Lemma AppSidebar_pinned (t : string → string)
    (conversationList : JsObject.t Conversation)
    (conversations : option (JsObject.t Conversation))
    (pinned : list string) (currentId : string) (p : Props) :
  p ∈ AppSidebar_items t conversationList conversations pinned currentId →
  props_id p ≠ "default" →
  (props_pinned p = true ↔ props_id p ∈ pinned).
Proof.
  unfold AppSidebar_items. rewrite lists_filter; simpl. intros Hin Hd.
  apply elem_of_cons in Hin as [->|Hin]; [done|].
  apply elem_of_app in Hin as [Hin|Hin];
    apply list_elem_of_fmap in Hin as (item & -> & Hin);
    apply list_elem_of_fmap in Hin as ([k c] & -> & Hin);
    apply list_elem_of_filter in Hin as [[_ Hp] _]; simpl in *.
  - done.
  - split; [discriminate | done].
Qed.

(** X13: what the menus offer.  An item of the sidebar that is being
    renamed shows no menu.  Every other item offers the copy; the item of
    ["default"] offers nothing else; every other item offers AI rename,
    rename and delete, and unpin when its id is among the pinned ids, pin
    when it is not. *)
Theorem AppSidebar_menus (t : string → string)
    (conversationList : JsObject.t Conversation)
    (conversations : option (JsObject.t Conversation))
    (pinned : list string) (currentId : string) (p : Props) :
  p ∈ AppSidebar_items t conversationList conversations pinned currentId →
  menu true p = []
  ∧ MenuCopy ∈ menu false p
  ∧ (props_id p = "default" → menu false p = [MenuCopy])
  ∧ (props_id p ≠ "default" →
     menu false p
     = [if bool_decide (props_id p ∈ pinned) then MenuUnpin else MenuPin;
        MenuCopy; MenuAIRename; MenuRename; MenuDelete]).
Proof.
  intros Hp. split; [done|]. unfold menu.
  destruct (decide (props_id p = "default")) as [E|E].
  - rewrite !bool_decide_eq_false_2 by (intros H; by apply H). simpl.
    split; [apply list_elem_of_here|]. split; [done|]. intros H. by destruct H.
  - rewrite !bool_decide_eq_true_2 by done. simpl.
    split; [apply list_elem_of_further, list_elem_of_here|].
    split; [done|]. intros _.
    pose proof (AppSidebar_pinned _ _ _ _ _ _ Hp E) as Hpin.
    destruct (props_pinned p).
    + by rewrite bool_decide_eq_true_2 by by apply Hpin.
    + rewrite bool_decide_eq_false_2; [done|].
      intros H. apply Hpin in H. discriminate.
Qed.

(** The fixed entry of the sidebar of the start. *)
Lemma AppSidebar_menus_witness :
  menu false {| props_id := "default"; props_title := "defaultConversation";
                props_pinned := false; props_isActive := true |}
  = [MenuCopy].
Proof.
  destruct (AppSidebar_menus (λ key, key)
              (conversationList (conversationStore initialWorld)) None []
              "default"
              {| props_id := "default"; props_title := "defaultConversation";
                 props_pinned := false; props_isActive := true |})
    as (_ & _ & H & _).
  - apply list_elem_of_here.
  - by apply H.
Defined.

(** ** Model options, whatever the deployment names *)

Lemma keys_set_prefix {V : Type} (k : string) (v : V) (o : JsObject.t V) :
  JsObject.keys o `prefix_of` JsObject.keys (JsObject.set k v o).
Proof.
  destruct (JsObject.get k o) as [v0|] eqn:E.
  - rewrite JsObjectFacts.keys_set_in; [done | by eexists].
  - rewrite JsObjectFacts.keys_set_fresh by done. by apply prefix_app_r.
Qed.

Lemma assign_keys_prefix {V : Type} (k : string) (v : V) (o : JsObject.t V) :
  JsObject.array_index k = None →
  JsObject.keys o `prefix_of` JsObject.keys (JsObject.assign k v o).
Proof.
  intros Hi. unfold JsObject.assign. destruct (bool_decide _); [done|].
  rewrite Hi. destruct (JsObject.get k o); apply keys_set_prefix.
Qed.

Lemma merge_fold_keys (models : list string) (fetched : list ModelInfo)
    (table : JsObject.t string) :
  JsObject.keys table
    `sublist_of` JsObject.keys (foldl (merge_step models) table fetched)
  ∧ (NoDup (JsObject.keys table) →
     NoDup (JsObject.keys (foldl (merge_step models) table fetched)))
  ∧ (Forall (λ item, JsObject.array_index
                       (Str.replace "models/" "" (name item)) = None) fetched →
     JsObject.keys table
       `prefix_of` JsObject.keys (foldl (merge_step models) table fetched)).
Proof.
  revert table. induction fetched as [|item fetched IH]; intros table;
    cbn [foldl]; [done|].
  destruct (IH (merge_step models table item)) as (Hsub & Hnd & Hpre).
  unfold merge_step in *. destruct (negb _).
  - split; [|split].
    + etrans; [apply assign_keys_sublist | exact Hsub].
    + intros H. by apply Hnd, assign_keys_NoDup.
    + intros Hall. apply Forall_cons in Hall as [Hi Hall].
      etrans; [by apply assign_keys_prefix | by apply Hpre].
  - split; [done|]. split; [done|].
    intros Hall. apply Forall_cons in Hall as [_ Hall]. by apply Hpre.
Qed.

(** X14: merging the fetched models never removes a key of the model
    table and keeps the keys of the table in their order: they are a
    sub-sequence of the keys after the merge, and distinct keys stay
    distinct.  When no fetched name is a canonical array index (which
    JavaScript would list first), the keys of the table are a prefix of the
    keys after the merge. *)
Theorem mergeModels_keeps_keys (fetched : list ModelInfo)
    (table : JsObject.t string) :
  JsObject.keys table `sublist_of` JsObject.keys (mergeModels fetched table)
  ∧ (NoDup (JsObject.keys table) →
     NoDup (JsObject.keys (mergeModels fetched table)))
  ∧ (Forall (λ item, JsObject.array_index
                       (Str.replace "models/" "" (name item)) = None) fetched →
     JsObject.keys table
       `prefix_of` JsObject.keys (mergeModels fetched table)).
Proof.
  unfold mergeModels. destruct (bool_decide _); [|done].
  apply merge_fold_keys.
Qed.

Lemma modelOptions_nonempty_options (GEMINI_MODEL_LIST : option string)
    (fetched : list ModelInfo) (table : JsObject.t string) :
  table ≠ [] →
  options (modelOptions GEMINI_MODEL_LIST fetched table) ≠ [].
Proof.
  intros Hne. unfold modelOptions; simpl. case_bool_decide as Hlen.
  - intros E. rewrite E in Hlen. simpl in Hlen. lia.
  - destruct table as [|[k v] table]; [done|]. intros E.
    assert (k ∈ JsObject.keys (mergeModels fetched ((k, v) :: table))) as Hk
      by (apply mergeModels_keys_mono, list_elem_of_here).
    rewrite E in Hk. by apply elem_of_nil in Hk.
Qed.

(** X15: the select of the default model is never empty: over a model
    table that is not empty, [modelOptions] returns at least one option,
    whatever [GEMINI_MODEL_LIST] and the fetched models are. *)
Theorem modelOptions_nonempty (GEMINI_MODEL_LIST : option string)
    (fetched : list ModelInfo) (table : JsObject.t string) :
  table ≠ [] →
  options (modelOptions GEMINI_MODEL_LIST fetched table) ≠ [].
Proof.
  apply modelOptions_nonempty_options.
Qed.

(** A list that cancels what it names still leaves options. *)
Lemma modelOptions_nonempty_witness :
  options (modelOptions (Some "gemini-pro,-gemini-pro") [] Model) ≠ [].
Proof. apply modelOptions_nonempty. discriminate. Defined.

Lemma startsWith_minus_not_all (modelName : string) :
  Str.startsWith "-" modelName = true →
  bool_decide (modelName = "all") || bool_decide (modelName = "+all") = false.
Proof.
  destruct modelName as [|c rest]; simpl; [discriminate|].
  rewrite andb_true_r. intros H. apply bool_decide_eq_true in H as <-.
  by rewrite !bool_decide_eq_false_2.
Qed.

Lemma userModel_removal (defaultModelList : list string) (st : Options)
    (modelName : string) :
  Str.startsWith "-" modelName = true →
  modelList st = [] →
  modelList (userModel defaultModelList st modelName) = [].
Proof.
  intros Hminus Hempty. unfold userModel.
  rewrite startsWith_minus_not_all by done.
  destruct (bool_decide (modelName = "-all"));
    [cbn [modelList]; by rewrite Hempty|].
  rewrite Hminus. cbn [modelList]. by rewrite Hempty.
Qed.

(** X16: a [GEMINI_MODEL_LIST] that only removes models removes nothing.
    When every name of the list starts with [-], the options are all the
    keys of the model table after the merge, the removed names among them. *)
Theorem modelOptions_removals_only (GEMINI_MODEL_LIST : option string)
    (fetched : list ModelInfo) (table : JsObject.t string) :
  Forall (λ modelName, Str.startsWith "-" modelName = true)
         (userModels GEMINI_MODEL_LIST) →
  options (modelOptions GEMINI_MODEL_LIST fetched table)
  = JsObject.keys (mergeModels fetched table).
Proof.
  intros Hall. unfold modelOptions; simpl.
  assert (∀ names st,
            Forall (λ modelName, Str.startsWith "-" modelName = true) names →
            modelList st = [] →
            modelList (foldl (userModel (JsObject.keys (mergeModels fetched table)))
                             st names) = []) as Hfold.
  { induction names as [|n names IH]; intros st Hn Hst; cbn [foldl]; [done|].
    apply Forall_cons in Hn as [Hn Hns].
    apply IH; [done|]. by apply userModel_removal. }
  rewrite Hfold by done. by rewrite bool_decide_eq_false_2 by (simpl; lia).
Qed.

(** The deployment asks to hide [gemini-pro] and hides nothing. *)
Lemma modelOptions_removals_only_witness :
  options (modelOptions (Some "-gemini-pro") [] Model) = JsObject.keys Model.
Proof.
  apply (modelOptions_removals_only (Some "-gemini-pro") [] Model).
  by apply (bool_decide_unpack _).
Defined.

Lemma userModel_tracks (defaultModelList : list string) (st : Options)
    (modelName : string) :
  tracks st → tracks (userModel defaultModelList st modelName).
Proof.
  intros Hst. unfold userModel.
  destruct (_ || _); [done|].
  destruct (bool_decide (modelName = "-all")); [done|].
  destruct (Str.startsWith "-" modelName); [done|].
  destruct (Str.startsWith "@" modelName); [|done].
  right. cbn [updates defaultModel]. by rewrite last_snoc.
Qed.

Lemma userModels_track (defaultModelList names : list string) (st : Options) :
  tracks st → tracks (foldl (userModel defaultModelList) st names).
Proof.
  revert st. induction names as [|n names IH]; intros st Hst; cbn [foldl];
    [done|].
  by apply IH, userModel_tracks.
Qed.

(** X17: the model that the memo leaves in the setting store is one of the
    options.  Over a model table that is not empty, the last call of
    [update({ model })] that [modelOptions] makes, if it makes one, passes a
    model that is among the returned options. *)
Theorem modelOptions_last_update (GEMINI_MODEL_LIST : option string)
    (fetched : list ModelInfo) (table : JsObject.t string)
    (u : option string) :
  table ≠ [] →
  last (setting_updates (modelOptions GEMINI_MODEL_LIST fetched table)) = Some u →
  ∃ m, u = Some m ∧ m ∈ options (modelOptions GEMINI_MODEL_LIST fetched table).
Proof.
  intros Hne.
  pose proof (modelOptions_nonempty_options GEMINI_MODEL_LIST fetched table Hne)
    as Hopts.
  revert Hopts. unfold modelOptions; cbn [options setting_updates].
  set (st := foldl _ _ _).
  assert (tracks st) as Hst by (apply userModels_track; by left).
  set (models := if bool_decide (0 < length (modelList st)) then _ else _).
  intros Hopts. case_bool_decide as Hin; simpl.
  - intros Hlast. destruct Hst as [E|E]; rewrite E in Hlast; [done|].
    injection Hlast as <-. by exists (defaultModel st).
  - rewrite last_snoc. intros [= <-].
    destruct models as [|m models']; [done|]. exists m. split; [done|].
    apply list_elem_of_here.
Qed.

(** The deployment names a default model and removes it again. *)
Lemma modelOptions_last_update_witness :
  ∃ m, Some "gemini-pro" = Some m
       ∧ m ∈ options (modelOptions (Some "gemini-pro,@mine,-mine") [] Model).
Proof.
  apply (modelOptions_last_update (Some "gemini-pro,@mine,-mine") [] Model);
    [discriminate | reflexivity].
Defined.

(** X18: without a [GEMINI_MODEL_LIST] the memo leaves the stored model
    alone.  When the list names no model and the model table has the key
    [gemini-1.5-flash-latest], [modelOptions] makes no call of
    [update({ model })], whatever the fetched models are. *)
Theorem modelOptions_no_update (GEMINI_MODEL_LIST : option string)
    (fetched : list ModelInfo) (table : JsObject.t string) :
  userModels GEMINI_MODEL_LIST = [] →
  "gemini-1.5-flash-latest" ∈ JsObject.keys table →
  setting_updates (modelOptions GEMINI_MODEL_LIST fetched table) = [].
Proof.
  intros Huser Hkey. unfold modelOptions. rewrite Huser; simpl.
  rewrite bool_decide_eq_true_2; [done|].
  by apply mergeModels_keys_mono.
Qed.

(** The built-in table and an answer of the service. *)
Lemma modelOptions_no_update_witness :
  setting_updates
    (modelOptions None
       [ {| name := "models/gemini-2.0"; displayName := "Gemini 2.0" |} ]
       Model) = [].
Proof.
  apply modelOptions_no_update; [reflexivity|].
  by apply (bool_decide_unpack _).
Defined.

Lemma userModel_no_default (defaultModelList : list string) (st : Options)
    (modelName : string) :
  Str.startsWith "@" modelName = false →
  defaultModel (userModel defaultModelList st modelName) = defaultModel st
  ∧ updates (userModel defaultModelList st modelName) = updates st.
Proof.
  intros Hat. unfold userModel.
  destruct (_ || _); [done|].
  destruct (bool_decide (modelName = "-all")); [done|].
  destruct (Str.startsWith "-" modelName); [done|].
  by rewrite Hat.
Qed.

(** X19: a deployment list without a default model overrides the stored
    model.  When no name of [GEMINI_MODEL_LIST] starts with [@] and
    [gemini-1.5-flash-latest] is not among the options, [modelOptions] makes
    exactly one call of [update({ model })], with the first option. *)
Theorem modelOptions_overrides_stored (GEMINI_MODEL_LIST : option string)
    (fetched : list ModelInfo) (table : JsObject.t string) :
  Forall (λ modelName, Str.startsWith "@" modelName = false)
         (userModels GEMINI_MODEL_LIST) →
  "gemini-1.5-flash-latest"
    ∉ options (modelOptions GEMINI_MODEL_LIST fetched table) →
  setting_updates (modelOptions GEMINI_MODEL_LIST fetched table)
  = [head (options (modelOptions GEMINI_MODEL_LIST fetched table))].
Proof.
  intros Hall. unfold modelOptions; cbn [options setting_updates].
  set (st := foldl _ _ _).
  assert (defaultModel st = "gemini-1.5-flash-latest" ∧ updates st = [])
    as [Hd Hu].
  { subst st. generalize (userModels GEMINI_MODEL_LIST) Hall. intros names Hn.
    assert (∀ st0, defaultModel st0 = "gemini-1.5-flash-latest" →
                   updates st0 = [] →
                   defaultModel (foldl (userModel (JsObject.keys
                                   (mergeModels fetched table))) st0 names)
                   = "gemini-1.5-flash-latest"
                   ∧ updates (foldl (userModel (JsObject.keys
                                (mergeModels fetched table))) st0 names) = [])
      as Hfold.
    { induction names as [|n names IH]; intros st0 H1 H2; cbn [foldl]; [done|].
      apply Forall_cons in Hn as [Hn Hns].
      destruct (userModel_no_default
                  (JsObject.keys (mergeModels fetched table)) st0 n Hn)
        as [E1 E2].
      apply IH; [done | by rewrite E1 | by rewrite E2]. }
    by apply Hfold. }
  rewrite Hd, Hu. intros Hout. by rewrite bool_decide_eq_false_2.
Qed.

(** The deployment offers two models of its own. *)
Lemma modelOptions_overrides_stored_witness :
  setting_updates (modelOptions (Some "mine,yours") [] Model) = [Some "mine"].
Proof.
  apply (modelOptions_overrides_stored (Some "mine,yours") [] Model).
  - by apply (bool_decide_unpack _).
  - by apply (bool_decide_unpack _).
Defined.

(** ** The sidebar under a search *)

(** X20: what a search shows.  [handleSearch] with a keyword that compiles
    keeps the conversations it found in the store's list as that list was
    when the search ran.  From then on, whatever the store's list has become
    ([later]) and until the next search or the clearing of the keyword,
    every item of the ordinary list and of the pinned list is a conversation
    of the list that was searched, under its id and with the record it had
    then, and it matches the keyword; clearing the keyword shows the lists of
    the store's present list. *)
Theorem handleSearch_shows_matches (compile : string → option RegExp.Matcher)
    (keyword : string) (m : RegExp.Matcher)
    (conversationList later : JsObject.t Conversation)
    (conversations : option (JsObject.t Conversation))
    (pinned : list string) (item : ConversationItem) :
  finds_from_start m →
  compile (Str.trim keyword) = Some m →
  item ∈ (lists later
                (handleSearch compile keyword conversationList conversations)
                pinned).1
         ++ (lists later
                   (handleSearch compile keyword conversationList conversations)
                   pinned).2 →
  (item_id item, item_conversation item) ∈ conversationList
  ∧ entry_matches m (item_conversation item)
  ∧ lists later
          (handleClearKeyword
             (handleSearch compile keyword conversationList conversations))
          pinned
    = lists later None pinned.
Proof.
  intros Hm Hc. unfold handleSearch.
  destruct (search compile keyword conversationList) as [found|] eqn:E.
  - rewrite lists_filter; simpl. intros Hin.
    assert ((item_id item, item_conversation item) ∈ found) as Hfound.
    { apply elem_of_app in Hin as [Hin|Hin];
        apply list_elem_of_fmap in Hin as ([k c] & -> & Hin);
        by apply list_elem_of_filter in Hin as [_ Hin]. }
    split; [by apply (search_results_from_data compile keyword _ found)|].
    split; [|done].
    by apply (search_results_sound compile keyword m conversationList found
                (item_id item)).
  - unfold search in E. by rewrite Hc in E.
Qed.

(** The one item that [hello] shows in a list of two, after the store's
    entry of that item got a title. *)
Lemma handleSearch_shows_matches_witness :
  ("a", saying "hello there")
    ∈ [("a", saying "hello there"); ("b", titled "Hello World")]
  ∧ entry_matches (λ s start, RegExp.exec_literal "hello" s 0 start)
                  (saying "hello there")
  ∧ lists [("a", titled "Greeting"); ("b", titled "Hello World")]
          (handleClearKeyword
             (handleSearch RegExp.literal "hello"
                [("a", saying "hello there"); ("b", titled "Hello World")]
                None))
          []
    = lists [("a", titled "Greeting"); ("b", titled "Hello World")] None [].
Proof.
  apply (handleSearch_shows_matches RegExp.literal "hello"
           (λ s start, RegExp.exec_literal "hello" s 0 start)
           [("a", saying "hello there"); ("b", titled "Hello World")]
           [("a", titled "Greeting"); ("b", titled "Hello World")]
           None []
           {| item_id := "a"; item_conversation := saying "hello there" |}).
  - by apply (literal_finds_from_start "hello").
  - reflexivity.
  - apply list_elem_of_here.
Defined.

(** ** The form schema: required fields, validation twice *)
Module SchemaFacts.

Import Zod.

(** What every field of an accepted object went through. *)
Lemma formSchema_fields (is_url : String.string → bool)
    (input : JsObject.t value) (v : Form.Values) :
  Form.formSchema is_url input = Some v →
  optional string (field "password" input) = Some (Form.password v)
  ∧ url is_url string (field "assistantIndexUrl" input)
    = Some (Form.assistantIndexUrl v)
  ∧ optional string (field "lang" input) = Some (Form.lang v)
  ∧ optional string (field "apiKey" input) = Some (Form.apiKey v)
  ∧ optional (url is_url string) (field "apiProxy" input)
    = Some (Form.apiProxy v)
  ∧ optional (url is_url string) (field "uploadProxy" input)
    = Some (Form.uploadProxy v)
  ∧ string (field "model" input) = Some (Form.model v)
  ∧ default (Number (Finite 0)) (optional (lte 50 (gte 0 number_)))
            (field "maxHistoryLength" input) = Some (Form.maxHistoryLength v)
  ∧ default (Number (Finite (95 # 100))) (lte 1 (gte 0 number_))
            (field "topP" input) = Some (Form.topP v)
  ∧ default (Number (Finite 40)) (lte 128 (gte 0 number_))
            (field "topK" input) = Some (Form.topK v)
  ∧ default (Number (Finite 1)) (lte 1 (gte 0 number_))
            (field "temperature" input) = Some (Form.temperature v)
  ∧ default (Number (Finite 8192)) (lte 8192 (gte 0 number_))
            (field "maxOutputTokens" input) = Some (Form.maxOutputTokens v)
  ∧ default (Text "none") (enum Form.safety_levels) (field "safety" input)
    = Some (Form.safety v)
  ∧ optional string (field "sttLang" input) = Some (Form.sttLang v)
  ∧ optional string (field "ttsLang" input) = Some (Form.ttsLang v)
  ∧ optional string (field "ttsVoice" input) = Some (Form.ttsVoice v)
  ∧ default (Boolean false) boolean (field "autoStopRecord" input)
    = Some (Form.autoStopRecord v).
Proof.
  unfold Form.formSchema. intros H.
  repeat (apply bind_Some in H as (? & ? & H)).
  injection H as <-. simpl. repeat split; assumption.
Qed.

(** X21: the two required fields.  An object whose [model] is not a
    text, or whose [assistantIndexUrl] is not a text that is a URL (a
    missing key among these cases), is rejected whatever its other fields
    are, and submitting it updates nothing. *)
Theorem formSchema_required (is_url : String.string → bool)
    (input : JsObject.t value) :
  (∀ s, field "model" input ≠ Text s)
  ∨ (∀ s, field "assistantIndexUrl" input = Text s → is_url s = false) →
  Form.formSchema is_url input = None ∧ Form.submit is_url input = [].
Proof.
  intros Hbad. unfold Form.submit.
  destruct (Form.formSchema is_url input) as [v|] eqn:E; [exfalso|done].
  apply formSchema_fields in E as (_ & Hu & _ & _ & _ & _ & Hm & _).
  destruct Hbad as [Hbad|Hbad].
  - unfold string in Hm. destruct (field "model" input) eqn:F; try discriminate.
    by apply (Hbad s).
  - unfold url, string in Hu.
    destruct (field "assistantIndexUrl" input) eqn:F; try discriminate.
    simpl in Hu. by rewrite (Hbad s) in Hu.
Qed.

(** The empty object. *)
Lemma formSchema_required_witness :
  Form.formSchema (λ _, true) [] = None ∧ Form.submit (λ _, true) [] = [].
Proof. apply formSchema_required. left. intros s. discriminate. Defined.

Lemma optional_string_again (x : value) (o : option String.string) :
  optional string x = Some o → optional string (optional_text o) = Some o.
Proof.
  unfold optional, string. destruct x; simpl; intros [= <-]; done.
Qed.

Lemma url_again (is_url : String.string → bool) (x : value)
    (s : String.string) :
  url is_url string x = Some s → url is_url string (Text s) = Some s.
Proof.
  unfold url, string. destruct x; simpl; try discriminate.
  destruct (is_url s0) eqn:E; [|discriminate]. intros [= <-]. simpl.
  by rewrite E.
Qed.

Lemma optional_url_again (is_url : String.string → bool) (x : value)
    (o : option String.string) :
  optional (url is_url string) x = Some o →
  optional (url is_url string) (optional_text o) = Some o.
Proof.
  unfold optional at 1. destruct x; try (intros [= <-]; done);
    intros H; apply fmap_Some in H as (s' & H & ->);
    apply url_again in H; simpl; by rewrite H.
Qed.

Lemma range_again (lo hi : Q) (n : number) :
  Form.between lo hi n → lte hi (gte lo number_) (Number n) = Some n.
Proof.
  intros (q & -> & Hlo & Hhi). unfold lte, gte, number_; simpl.
  apply Qle_bool_iff in Hlo, Hhi. by rewrite Hlo; simpl; rewrite Hhi.
Qed.

Lemma default_range_again (lo hi : Q) (d x : value) (n : number) :
  default d (lte hi (gte lo number_)) x = Some n →
  default d (lte hi (gte lo number_)) (Number n) = Some n.
Proof.
  intros H. apply FormFacts.default_range in H as [Hb _].
  by apply range_again.
Qed.

Lemma default_optional_range_again (lo hi : Q) (d : number) (x : value)
    (o : option number) :
  default (Number d) (optional (lte hi (gte lo number_))) x = Some o →
  default (Number d) (optional (lte hi (gte lo number_))) (optional_number o)
  = Some o.
Proof.
  intros H. apply FormFacts.default_optional_range in H as (n & -> & Hb & _).
  simpl. unfold optional. by rewrite range_again.
Qed.

Lemma default_enum_again (allowed : list String.string) (x : value)
    (s : String.string) :
  default (Text "none") (enum allowed) x = Some s →
  default (Text "none") (enum allowed) (Text s) = Some s.
Proof.
  intros H. apply FormFacts.default_enum in H as [Hin _]. simpl.
  by rewrite bool_decide_eq_true_2.
Qed.

Lemma default_boolean_again (x : value) (b : bool) :
  default (Boolean false) boolean x = Some b →
  default (Boolean false) boolean (Boolean b) = Some b.
Proof. done. Qed.

Lemma string_again (x : value) (s : String.string) :
  string x = Some s → string (Text s) = Some s.
Proof. done. Qed.

(** X22: validation is idempotent.  The values the schema yields for an
    object it accepts, given back as an object, are accepted and yield
    themselves, so submitting the stored settings unchanged stores them
    again. *)
Theorem formSchema_idempotent (is_url : String.string → bool)
    (input : JsObject.t value) (v : Form.Values) :
  Form.formSchema is_url input = Some v →
  Form.formSchema is_url (values_object v) = Some v
  ∧ Form.submit is_url (values_object v) = [Form.Update v; Form.Close].
Proof.
  intros H.
  assert (Form.formSchema is_url (values_object v) = Some v) as Hagain;
    [|split; [done | unfold Form.submit; by rewrite Hagain]].
  apply formSchema_fields in H
    as (H1 & H2 & H3 & H4 & H5 & H6 & H7 & H8 & H9 & H10 & H11 & H12 & H13
        & H14 & H15 & H16 & H17).
  apply optional_string_again in H1, H3, H4, H14, H15, H16.
  apply url_again in H2. apply optional_url_again in H5, H6.
  apply default_optional_range_again in H8.
  apply default_range_again in H9, H10, H11, H12.
  apply default_enum_again in H13.
  unfold Form.formSchema.
  change (field "password" (values_object v))
    with (optional_text (Form.password v)).
  change (field "assistantIndexUrl" (values_object v))
    with (Text (Form.assistantIndexUrl v)).
  change (field "lang" (values_object v)) with (optional_text (Form.lang v)).
  change (field "apiKey" (values_object v))
    with (optional_text (Form.apiKey v)).
  change (field "apiProxy" (values_object v))
    with (optional_text (Form.apiProxy v)).
  change (field "uploadProxy" (values_object v))
    with (optional_text (Form.uploadProxy v)).
  change (field "model" (values_object v)) with (Text (Form.model v)).
  change (field "maxHistoryLength" (values_object v))
    with (optional_number (Form.maxHistoryLength v)).
  change (field "topP" (values_object v)) with (Number (Form.topP v)).
  change (field "topK" (values_object v)) with (Number (Form.topK v)).
  change (field "temperature" (values_object v))
    with (Number (Form.temperature v)).
  change (field "maxOutputTokens" (values_object v))
    with (Number (Form.maxOutputTokens v)).
  change (field "safety" (values_object v)) with (Text (Form.safety v)).
  change (field "sttLang" (values_object v))
    with (optional_text (Form.sttLang v)).
  change (field "ttsLang" (values_object v))
    with (optional_text (Form.ttsLang v)).
  change (field "ttsVoice" (values_object v))
    with (optional_text (Form.ttsVoice v)).
  change (field "autoStopRecord" (values_object v))
    with (Boolean (Form.autoStopRecord v)).
  rewrite H1, H2, H3, H4, H5, H6, H8, H9, H10, H11, H12, H13, H14, H15, H16.
  simpl. by destruct v.
Qed.

(** The values of the defaults, validated again. *)
Lemma formSchema_idempotent_witness :
  ∃ v,
    Form.formSchema (λ _, true) (values_object v) = Some v
    ∧ Form.topP v = Finite (95 # 100).
Proof.
  eexists. split.
  - refine (proj1 (formSchema_idempotent (λ _, true)
              [("assistantIndexUrl", Text "https://example.org/index");
               ("model", Text "gemini-pro")] _ _)).
    reflexivity.
  - reflexivity.
Defined.

End SchemaFacts.

(** ** Answers of the model-list service *)

Lemma fetched_then_nil (st : ModelState) : fetched_then [] st = st.
Proof. reflexivity. Qed.

Lemma fetched_then_cons (item : ModelInfo) (answer : list ModelInfo)
    (st : ModelState) :
  fetched_then (item :: answer) st
  = {| cachedModelList := true; store_models := item :: answer |}.
Proof. reflexivity. Qed.

(** X23: answers never undo a fetch.  After any sequence of answers the
    state is the initial one when all answers were empty; the flag
    [cachedModelList], once set, stays set, and a model store that holds
    models keeps holding some; and opening the view no longer fetches
    exactly when the flag was set at first or some answer was not empty. *)
Theorem answers_keep_models (answers : list (list ModelInfo))
    (st : ModelState) :
  (Forall (λ answer, answer = []) answers → answers_then answers st = st)
  ∧ (cachedModelList st = true →
     cachedModelList (answers_then answers st) = true)
  ∧ (store_models st ≠ [] → store_models (answers_then answers st) ≠ [])
  ∧ (fetches true (answers_then answers st) = false
     ↔ cachedModelList st = true ∨ Exists (λ answer, answer ≠ []) answers).
Proof.
  unfold answers_then. revert st.
  induction answers as [|answer answers IH]; intros st; cbn [foldl].
  - repeat split; try done.
    + unfold fetches; simpl. intros H. left. by destruct (cachedModelList st).
    + unfold fetches; simpl. intros [->|H]; [done|]. by apply Exists_nil in H.
  - destruct (IH (fetched_then answer st)) as (H1 & H2 & H3 & H4).
    destruct answer as [|item answer].
    + rewrite fetched_then_nil in *. split; [|split; [|split]].
      * intros Hall. apply Forall_cons in Hall as [_ Hall]. by apply H1.
      * done.
      * done.
      * rewrite H4, Exists_cons. split; [intros [?|?]; auto|].
        intros [?|[Hnil|?]]; [by left | by destruct Hnil | by right].
    + rewrite fetched_then_cons in *. simpl in *. split; [|split; [|split]].
      * intros Hall. by apply Forall_cons in Hall as [? _].
      * intros _. by apply H2.
      * intros _. by apply H3.
      * rewrite H4, Exists_cons. split; [intros _; right; by left|].
        intros _. by left.
Qed.

(** ** Changing the language *)

(** X24: a change of language reaches every holder of a language.  After
    [handleLangChange value], also when it raises, the language of [i18n],
    the form values [lang], [sttLang] and [ttsLang] and the state [ttsLang]
    are all [value].  The voice is the first option of the voice list of
    [value]; it is left as it was when there is no list, and when the list
    is empty, in which case the handler raises. *)
Theorem handleLangChange_agrees
    (voiceOptions : string → option (list VoiceOption)) (value : string)
    (st : Languages) :
  let st' := outcome_state (handleLangChange voiceOptions value st) in
  i18n_language st' = value
  ∧ form_lang st' = Some value
  ∧ form_sttLang st' = Some value
  ∧ form_ttsLang st' = Some value
  ∧ state_ttsLang st' = value
  ∧ (voiceOptions value = None →
     form_ttsVoice st' = form_ttsVoice st
     ∧ handleLangChange voiceOptions value st = Returned st')
  ∧ (voiceOptions value = Some [] →
     form_ttsVoice st' = form_ttsVoice st
     ∧ handleLangChange voiceOptions value st = Raised st')
  ∧ (∀ first others,
       voiceOptions value = Some (first :: others) →
       form_ttsVoice st' = Some (voice_value first)
       ∧ handleLangChange voiceOptions value st = Returned st').
Proof.
  unfold handleLangChange, handleTTSChange; simpl.
  destruct (voiceOptions value) as [[|first others]|]; simpl;
    repeat split; try done; intros; simplify_eq; by repeat split.
Qed.
